(** * simple_pipes: a shallow embedding of [simple_pipes/__init__.py]

    The Python module builds ETL pipelines out of iterator stages.  This
    development embeds the stages and the plug-in helpers as Rocq
    functions and proves properties of them.

    Conventions of the embedding:
    - a Python exception is a value of [exn]; code that may raise returns
      [result];
    - a generator is a finite trace [gen]: the rows it yields, ended either
      by exhaustion or by the exception raised at that pull;
    - a [dict] is an association list in insertion order, without
      duplicate keys ([wf]); [d[k] = v] keeps the position of an existing
      key and appends a new one, as Python does;
    - field values are [None], booleans, integers and strings; floats are
      outside the model. *)

From Stdlib Require Import List String Ascii ZArith Bool Lia Permutation.
From Stdlib Require Import Sorting.Sorted DecimalString.
Import ListNotations.

Local Open Scope string_scope.
Local Open Scope list_scope.

(** ** Exceptions and fallible computations *)

Inductive exn : Type :=
| KeyError (key : string)
| TypeError
| ValueError
| AttributeError (attr : string)
| Exception (msg : string).

Inductive result (A : Type) : Type :=
| Ok (a : A)
| Err (e : exn).

Arguments Ok {A} a.
Arguments Err {A} e.

Definition bind {A B : Type} (m : result A) (f : A -> result B) : result B :=
  match m with
  | Ok a => f a
  | Err e => Err e
  end.

Notation "x <- m ;; k" := (bind m (fun x => k))
  (at level 61, m at next level, right associativity).
Notation "' p <- m ;; k" := (bind m (fun p => k))
  (at level 61, p pattern, m at next level, right associativity).

Fixpoint mapM {A B : Type} (f : A -> result B) (l : list A) : result (list B) :=
  match l with
  | [] => Ok []
  | a :: l' => b <- f a ;; bs <- mapM f l' ;; Ok (b :: bs)
  end.

(** Calling an attribute that may hold [None]: [None(x)] raises
    [TypeError]. *)
Definition call {A B : Type} (f : option (A -> result B)) (a : A) : result B :=
  match f with
  | Some g => g a
  | None => Err TypeError
  end.

(** ** Generators *)

Inductive gen (A : Type) : Type :=
| GNil
| GCons (a : A) (g : gen A)
| GRaise (e : exn).

Arguments GNil {A}.
Arguments GCons {A} a g.
Arguments GRaise {A} e.

Fixpoint of_list {A : Type} (l : list A) : gen A :=
  match l with
  | [] => GNil
  | a :: l' => GCons a (of_list l')
  end.

(** [list(data)]: drains the generator, or raises what it raises. *)
Fixpoint to_list {A : Type} (g : gen A) : result (list A) :=
  match g with
  | GNil => Ok []
  | GCons a g' => l <- to_list g' ;; Ok (a :: l)
  | GRaise e => Err e
  end.

(** The rows yielded before the generator stops. *)
Fixpoint yielded {A : Type} (g : gen A) : list A :=
  match g with
  | GCons a g' => a :: yielded g'
  | _ => []
  end.

(** [for x in g1: yield x] followed by [g2]. *)
Fixpoint gen_app {A : Type} (g1 g2 : gen A) : gen A :=
  match g1 with
  | GNil => g2
  | GCons a g1' => GCons a (gen_app g1' g2)
  | GRaise e => GRaise e
  end.

(** ** Values *)

Inductive value : Type :=
| VNone
| VBool (b : bool)
| VInt (z : Z)
| VStr (s : string).

(** The integer a number stands for ([True] is [1]). *)
Definition num_of (v : value) : option Z :=
  match v with
  | VBool b => Some (if b then 1 else 0)%Z
  | VInt z => Some z
  | _ => None
  end.

(** Python's [==] on values. *)
Definition py_eq (x y : value) : bool :=
  match x, y with
  | VNone, VNone => true
  | VStr s, VStr t => String.eqb s t
  | _, _ =>
      match num_of x, num_of y with
      | Some a, Some b => Z.eqb a b
      | _, _ => false
      end
  end.

(** Python's [<] on values: numbers with numbers, strings with strings,
    anything else raises [TypeError]. *)
Definition py_lt (x y : value) : result bool :=
  match x, y with
  | VStr s, VStr t => Ok (String.ltb s t)
  | _, _ =>
      match num_of x, num_of y with
      | Some a, Some b => Ok (Z.ltb a b)
      | _, _ => Err TypeError
      end
  end.

(** Python's [+] on values. *)
Definition py_add (x y : value) : result value :=
  match x, y with
  | VStr s, VStr t => Ok (VStr (s ++ t))
  | _, _ =>
      match num_of x, num_of y with
      | Some a, Some b => Ok (VInt (a + b))
      | _, _ => Err TypeError
      end
  end.

(** Python's [str()]. *)
Definition py_str (v : value) : string :=
  match v with
  | VNone => "None"
  | VBool true => "True"
  | VBool false => "False"
  | VInt z => NilZero.string_of_int (Z.to_int z)
  | VStr s => s
  end.

(** ** Dictionaries *)

Definition dict (V : Type) : Type := list (string * V).

Definition keys {V : Type} (d : dict V) : list string := map fst d.

Definition wf {V : Type} (d : dict V) : Prop := NoDup (keys d).

(** [d.get(k)] *)
Fixpoint get {V : Type} (d : dict V) (k : string) : option V :=
  match d with
  | [] => None
  | (k', v) :: d' => if String.eqb k' k then Some v else get d' k
  end.

(** [d[k]] *)
Definition subscript {V : Type} (d : dict V) (k : string) : result V :=
  match get d k with
  | Some v => Ok v
  | None => Err (KeyError k)
  end.

(** [k in d] *)
Definition contains {V : Type} (d : dict V) (k : string) : bool :=
  match get d k with
  | Some _ => true
  | None => false
  end.

(** [d[k] = v] *)
Fixpoint set {V : Type} (d : dict V) (k : string) (v : V) : dict V :=
  match d with
  | [] => [(k, v)]
  | (k', v') :: d' =>
      if String.eqb k' k then (k', v) :: d' else (k', v') :: set d' k v
  end.

(** [d.update(d2)] *)
Definition update {V : Type} (d d2 : dict V) : dict V :=
  fold_left (fun acc kv => set acc (fst kv) (snd kv)) d2 d.

(** [dict(pairs)] *)
Definition dict_of {V : Type} (pairs : list (string * V)) : dict V :=
  update [] pairs.

Definition Record : Type := dict value.

(** Python's [==] on two Records: same fields, [==] values, in any order. *)
Definition record_eq (r1 r2 : Record) : Prop :=
  forall k,
    match get r1 k, get r2 k with
    | Some v1, Some v2 => py_eq v1 v2 = true
    | None, None => True
    | _, _ => False
    end.

(** ** Control structures shared by the stages *)

(** A [for] loop threading an accumulator through a fallible body. *)
Fixpoint foldM {A B : Type} (f : B -> A -> result B) (l : list A) (acc : B)
  : result B :=
  match l with
  | [] => Ok acc
  | a :: l' => acc' <- f acc a ;; foldM f l' acc'
  end.

(** [for x in data: yield f(x)] *)
Fixpoint gen_map {A B : Type} (f : A -> result B) (data : gen A) : gen B :=
  match data with
  | GNil => GNil
  | GCons a data' =>
      match f a with
      | Ok b => GCons b (gen_map f data')
      | Err e => GRaise e
      end
  | GRaise e => GRaise e
  end.

(** [for x in data: for y in f(x): yield y] *)
Fixpoint gen_flat_map {A B : Type} (f : A -> gen B) (data : gen A) : gen B :=
  match data with
  | GNil => GNil
  | GCons a data' => gen_app (f a) (gen_flat_map f data')
  | GRaise e => GRaise e
  end.

(** [filter(p, data)] *)
Fixpoint gen_filter {A : Type} (p : A -> result bool) (data : gen A) : gen A :=
  match data with
  | GNil => GNil
  | GCons a data' =>
      match p a with
      | Ok true => GCons a (gen_filter p data')
      | Ok false => gen_filter p data'
      | Err e => GRaise e
      end
  | GRaise e => GRaise e
  end.

(** ** Rich comparison, [sorted] and [itertools.groupby] *)

(** What [sorted] and [groupby] ask of a key: [<], which may raise, and
    [==], which does not. *)
Class PyOrd (K : Type) : Type := {
  rich_lt : K -> K -> result bool;
  rich_eq : K -> K -> bool
}.

Section Builtins.
Context {A K : Type} {ord : PyOrd K}.
Variable keyf : A -> result K.

(** One step of a stable insertion sort on decorated items: [x] comes
    from a position before every item of [s] and goes in front of the
    first item that is not smaller than it. *)
Fixpoint insert (x : K * A) (s : list (K * A)) : result (list (K * A)) :=
  match s with
  | [] => Ok [x]
  | y :: s' =>
      b <- rich_lt (fst y) (fst x) ;;
      if b then (r <- insert x s' ;; Ok (y :: r)) else Ok (x :: y :: s')
  end.

Fixpoint isort (l : list (K * A)) : result (list (K * A)) :=
  match l with
  | [] => Ok []
  | x :: l' => s <- isort l' ;; insert x s
  end.

Definition decorate (l : list A) : result (list (K * A)) :=
  mapM (fun a => k <- keyf a ;; Ok (k, a)) l.

(** [sorted(l, key=keyf)]: every key is computed first, then the items
    are ordered by [<] on the keys, equal keys staying in input order.
    CPython merges runs where this model inserts; the two agree whenever
    [<] answers on the keys of the input, the stable sorted arrangement
    being unique, and on keys made of the values modelled here [<]
    answers on every pair as soon as it answers along one sorted
    arrangement ([chain_cmp_ok] below), so that both raise [TypeError]
    on the same inputs. *)
Definition sorted (l : list A) : result (list A) :=
  keyed <- decorate l ;;
  s <- isort keyed ;;
  Ok (map snd s).

(** [groupby]'s inner loop: [tgt] is the key of the group being
    collected, [acc] its items so far, most recent first. *)
Fixpoint groupby_from (tgt : K) (acc : list A) (l : list A)
  : gen (K * list A) :=
  match l with
  | [] => GCons (tgt, rev acc) GNil
  | x :: l' =>
      match keyf x with
      | Err e => GRaise e
      | Ok k =>
          if rich_eq k tgt then groupby_from tgt (x :: acc) l'
          else GCons (tgt, rev acc) (groupby_from k [x] l')
      end
  end.

(** [for key, group in groupby(l, key=keyf): group = list(group)] *)
Definition groupby (l : list A) : gen (K * list A) :=
  match l with
  | [] => GNil
  | x :: l' =>
      match keyf x with
      | Err e => GRaise e
      | Ok k => groupby_from k [x] l'
      end
  end.
End Builtins.

(** ** Grouping keys *)

(** Tuples compare element by element: the first pair of elements that
    are not [==] decides, by [<]; a proper prefix is smaller. *)
Fixpoint tuple_eq (xs ys : list value) : bool :=
  match xs, ys with
  | [], [] => true
  | x :: xs', y :: ys' => py_eq x y && tuple_eq xs' ys'
  | _, _ => false
  end.

Fixpoint tuple_lt (xs ys : list value) : result bool :=
  match xs, ys with
  | [], [] => Ok false
  | [], _ :: _ => Ok true
  | _ :: _, [] => Ok false
  | x :: xs', y :: ys' => if py_eq x y then tuple_lt xs' ys' else py_lt x y
  end.

(** What a key function may return: an instance of a [namedtuple] class
    (its field names and its items), or any other value. *)
Inductive key : Type :=
| KNamed (fields : list string) (items : list value)
| KPlain (v : value).

Definition key_eq (a b : key) : bool :=
  match a, b with
  | KNamed _ xs, KNamed _ ys => tuple_eq xs ys
  | KPlain x, KPlain y => py_eq x y
  | _, _ => false
  end.

Definition key_lt (a b : key) : result bool :=
  match a, b with
  | KNamed _ xs, KNamed _ ys => tuple_lt xs ys
  | KPlain x, KPlain y => py_lt x y
  | _, _ => Err TypeError
  end.

#[export] Instance key_ord : PyOrd key :=
  {| rich_lt := key_lt; rich_eq := key_eq |}.

(** [key._asdict()]: only a namedtuple has it. *)
Definition _asdict (k : key) : result Record :=
  match k with
  | KNamed fields items => Ok (dict_of (combine fields items))
  | KPlain _ => Err (AttributeError "_asdict")
  end.

(** *** [collections.namedtuple]

    The class is represented by its field names.  Field names are checked
    as CPython does.  On ASCII names the check is exact.  The bytes of a
    non-ASCII character are taken as identifier characters: Python
    accepts the letters and marks among these characters and refuses the
    others (a currency sign, a dash), which this model of strings as byte
    sequences does not tell apart. *)

Definition is_alpha (c : ascii) : bool :=
  let n := nat_of_ascii c in
  ((65 <=? n) && (n <=? 90) || (97 <=? n) && (n <=? 122) || (n =? 95)
   || (128 <=? n))%nat.

Definition is_digit (c : ascii) : bool :=
  let n := nat_of_ascii c in ((48 <=? n) && (n <=? 57))%nat.

Fixpoint all_chars (p : ascii -> bool) (s : string) : bool :=
  match s with
  | EmptyString => true
  | String c s' => p c && all_chars p s'
  end.

Definition isidentifier (s : string) : bool :=
  match s with
  | EmptyString => false
  | String c s' => is_alpha c && all_chars (fun c => is_alpha c || is_digit c) s'
  end.

Definition kwlist : list string :=
  ["False"; "None"; "True"; "and"; "as"; "assert"; "async"; "await";
   "break"; "class"; "continue"; "def"; "del"; "elif"; "else"; "except";
   "finally"; "for"; "from"; "global"; "if"; "import"; "in"; "is";
   "lambda"; "nonlocal"; "not"; "or"; "pass"; "raise"; "return"; "try";
   "while"; "with"; "yield"].

Definition iskeyword (s : string) : bool :=
  existsb (String.eqb s) kwlist.

Definition startswith_underscore (s : string) : bool :=
  match s with
  | String c _ => Ascii.eqb c "_"%char
  | EmptyString => false
  end.

Fixpoint has_duplicate (l : list string) : bool :=
  match l with
  | [] => false
  | x :: l' => existsb (String.eqb x) l' || has_duplicate l'
  end.

Definition namedtuple (field_names : list string) : result (list string) :=
  if forallb (fun name => isidentifier name && negb (iskeyword name)) field_names
     && forallb (fun name => negb (startswith_underscore name)) field_names
     && negb (has_duplicate field_names)
  then Ok field_names
  else Err ValueError.

(** ** The stages *)

(** *** [ETLStreamingStep] *)

Module ETLStreamingStep.

Record t : Type := { step : option (Record -> result Record) }.

Definition __init__ (row_transform : option (Record -> result Record)) : t :=
  {| step := row_transform |}.

(** [run] calls the attribute [self.step] itself. *)
Definition run (self : t) (data : gen Record) : gen Record :=
  gen_map (call (step self)) data.

Definition _step (self : t) (row : Record) : result Record :=
  match step self with
  | Some f => f row
  | None => Ok row
  end.

End ETLStreamingStep.

(** *** [ETLAggStep] *)

(** The two shapes of [key_func]: a function, or an iterable of field
    names. *)
Inductive key_spec : Type :=
| KeyFunc (f : Record -> result key)
| KeyFields (fields : list string).

(** The shapes of [add_fields]: a callable returning a whole mapping, a
    dict of field builders, or anything else (which adds nothing). *)
Inductive field_builders : Type :=
| AddCallable (f : list Record -> result Record)
| AddDict (d : dict (list Record -> result value))
| AddOther.

Module ETLAggStep.

Record t : Type := {
  _key_func : Record -> result key;
  _add_fields : field_builders
}.

Definition _get_grouping_key (fields : list string)
  : result (Record -> result key) :=
  key <- namedtuple fields ;;
  Ok (fun row =>
        items <- mapM (fun field => subscript row field) fields ;;
        Ok (KNamed key items)).

Definition __init__ (key_func : key_spec) (add_fields : field_builders)
  : result t :=
  match key_func with
  | KeyFunc f => Ok {| _key_func := f; _add_fields := add_fields |}
  | KeyFields fields =>
      f <- _get_grouping_key fields ;;
      Ok {| _key_func := f; _add_fields := add_fields |}
  end.

(** The body of the [for key, group in groupby(...)] loop, up to the
    [yield]. *)
Definition agg_row (self : t) (kg : key * list Record) : result Record :=
  let (key, group) := kg in
  agg_row <- _asdict key ;;
  match _add_fields self with
  | AddCallable f =>
      fields <- f group ;;
      Ok (update agg_row fields)
  | AddDict d =>
      fields <- mapM (fun kf => v <- snd kf group ;; Ok (fst kf, v)) d ;;
      Ok (update agg_row fields)
  | AddOther => Ok agg_row
  end.

(** The groups the loop iterates over. *)
Definition groups (self : t) (data : gen Record)
  : result (gen (key * list Record)) :=
  l <- to_list data ;;
  d <- sorted (_key_func self) l ;;
  Ok (groupby (_key_func self) d).

Definition run (self : t) (data : gen Record) : gen Record :=
  match groups self data with
  | Err e => GRaise e
  | Ok gs => gen_map (agg_row self) gs
  end.

End ETLAggStep.

(** *** [ETLSplitStep] *)

Module ETLSplitStep.

Record t : Type := { step : Record -> gen Record }.

Definition _step (row : Record) : gen Record := of_list [row].

Definition __init__ (row_splitter : option (Record -> gen Record)) : t :=
  {| step := match row_splitter with
             | Some g => g
             | None => _step
             end |}.

Definition run (self : t) (data : gen Record) : gen Record :=
  gen_flat_map (step self) data.

End ETLSplitStep.

(** *** [ETLFilterStep] *)

Module ETLFilterStep.

Record t : Type := { _filter_func : Record -> result bool }.

Definition __init__ (filter_func : Record -> result bool) : t :=
  {| _filter_func := filter_func |}.

Definition run (self : t) (data : gen Record) : gen Record :=
  gen_filter (_filter_func self) data.

End ETLFilterStep.

(** *** [ETLPipeline] *)

Module ETLPipeline.

(** Anything with a [run] method. *)
Inductive stage : Type :=
| Streaming (s : ETLStreamingStep.t)
| Agg (s : ETLAggStep.t)
| Split (s : ETLSplitStep.t)
| Filter (s : ETLFilterStep.t).

Definition stage_run (s : stage) (data : gen Record) : gen Record :=
  match s with
  | Streaming s => ETLStreamingStep.run s data
  | Agg s => ETLAggStep.run s data
  | Split s => ETLSplitStep.run s data
  | Filter s => ETLFilterStep.run s data
  end.

Record t : Type := { _source : gen Record; _steps : list stage }.

Definition run (self : t) : gen Record :=
  fold_left (fun data step => stage_run step data) (_steps self) (_source self).

End ETLPipeline.

(** ** The helpers *)

Definition delimiter : ascii := "-"%char.

(** [s.split('-')] *)
Fixpoint split (sep : ascii) (s : string) : list string :=
  match s with
  | EmptyString => [EmptyString]
  | String c s' =>
      if Ascii.eqb c sep then EmptyString :: split sep s'
      else match split sep s' with
           | part :: parts => String c part :: parts
           | [] => [String c EmptyString]
           end
  end.

(** [sep.join(parts)] *)
Definition join (sep : ascii) (parts : list string) : string :=
  String.concat (String sep EmptyString) parts.

Definition compound_key_func_gen
    (fields : list string) (inv_transforms : dict (value -> result value))
  : (Record -> result value) * (value -> result Record) :=
  let key_func (row : Record) : result value :=
    parts <- mapM (fun field => v <- subscript row field ;; Ok (py_str v)) fields ;;
    Ok (VStr (join delimiter parts)) in
  let inverse_key_func (key : value) : result Record :=
    match key with
    | VStr s =>
        let row := dict_of (combine fields (map VStr (split delimiter s))) in
        upd <- mapM (fun kf => v <- subscript row (fst kf) ;;
                               v' <- snd kf v ;;
                               Ok (fst kf, v')) inv_transforms ;;
        Ok (update row upd)
    | _ => Err (AttributeError "split")
    end in
  (key_func, inverse_key_func).

(** An entry of [value_norms]: a callable, a dict from values to values,
    or something that is neither. *)
Inductive normalizer : Type :=
| NormFunc (f : value -> result value)
| NormDict (m : list (value * value))
| NormOther.

(** [m.get(v, default)] on a dict whose keys are values. *)
Fixpoint value_get (m : list (value * value)) (v default : value) : value :=
  match m with
  | [] => default
  | (k, w) :: m' => if py_eq k v then w else value_get m' v default
  end.

Definition quote : string := String (ascii_of_nat 34) EmptyString.

Definition unknown_normalizer (key : string) : exn :=
  Exception ("Unknown normalizer for " ++ quote ++ key ++ quote).

(** The body of the loop of [norm_values], up to the assignment. *)
Definition norm_value (value_norms : dict normalizer) (key : string)
    (val : value) : result value :=
  let norm := match get value_norms key with
              | Some n => n
              | None => NormDict []
              end in
  match norm with
  | NormFunc f => f val
  | NormDict m => Ok (value_get m val val)
  | NormOther => Err (unknown_normalizer key)
  end.

Definition get_value_normalizer (value_norms : dict normalizer)
  : Record -> result Record :=
  fun row =>
    foldM (fun output kv =>
             val <- norm_value value_norms (fst kv) (snd kv) ;;
             Ok (set output (fst kv) val))
          row [].

Definition merge_conflict (key : string) (val old : value) : exn :=
  Exception ("Unable to merge because conflicting values for " ++ key
             ++ " (" ++ py_str val ++ " != " ++ py_str old ++ ")").

(** The body of the inner loop of [merge_fields]. *)
Definition merge_item (output : Record) (kv : string * value) : result Record :=
  let (key, val) := kv in
  match get output key with
  | None => Ok (set output key val)
  | Some old =>
      if negb (py_eq old val) then Err (merge_conflict key val old)
      else Ok output
  end.

Definition merge_fields (group : list Record) : result Record :=
  foldM (fun output row => foldM merge_item row output) group [].

Definition sum_by_field (field : string) : list Record -> result value :=
  fun group =>
    foldM (fun acc row => v <- subscript row field ;; py_add acc v)
          group (VInt 0).

(** The shapes of [field_norms]: a callable, a dict from old names to new
    names, or something that is neither.  A new name is a string or
    [None]. *)
Inductive field_normalizer : Type :=
| FieldFunc (f : string -> result (option string))
| FieldDict (m : dict (option string))
| FieldOther.

Definition unknown_field_normalizer : exn :=
  Exception "Unknown field normalizer".

(** The body of the loop of [norm_fields], up to the test on [None]. *)
Definition norm_field (field_norms : field_normalizer) (key : string)
  : result (option string) :=
  match field_norms with
  | FieldFunc f => f key
  | FieldDict m => Ok (match get m key with
                       | Some target => target
                       | None => Some key
                       end)
  | FieldOther => Err unknown_field_normalizer
  end.

Definition get_field_normalizer (field_norms : field_normalizer)
  : Record -> result Record :=
  fun row =>
    foldM (fun output kv =>
             key <- norm_field field_norms (fst kv) ;;
             Ok (match key with
                 | Some k => set output k (snd kv)
                 | None => output
                 end))
          row [].

(** [k in m] on a dict whose keys are values. *)
Definition value_contains (m : list (value * value)) (v : value) : bool :=
  existsb (fun kw => py_eq (fst kw) v) m.

Definition pivot_collision (key : value) : exn :=
  Exception ("Collision in pivot for field " ++ py_str key).

(** The result of [pivot] is a dict whose keys are the pivot values, in
    insertion order. *)
Definition pivot_on (pivot_field value_field : string)
  : list Record -> result (list (value * value)) :=
  fun group =>
    foldM (fun output row =>
             key <- subscript row pivot_field ;;
             if value_contains output key then Err (pivot_collision key)
             else (v <- subscript row value_field ;;
                   Ok (output ++ [(key, v)])))
          group [].

(** [field_adder] works on a deep copy of the row: the caller's row is
    left as it is, which a function on values does by construction. *)
Definition add_fields (fields : dict (Record -> result value))
  : Record -> result Record :=
  fun row =>
    foldM (fun row kf => v <- snd kf row ;; Ok (set row (fst kf) v))
          fields row.

(** ** Vocabulary of the statements *)

(** The function [get_key] that [_get_grouping_key] returns for the
    field names [fields]: the key of a row is the namedtuple of the
    row's values under these names. *)
Definition get_key (fields : list string) : Record -> result key :=
  fun row =>
    items <- mapM (fun field => subscript row field) fields ;;
    Ok (KNamed fields items).

(** No character of [s] is the delimiter. *)
Definition no_delimiter (s : string) : bool :=
  all_chars (fun c => negb (Ascii.eqb c delimiter)) s.

(** The value of field [k] in the first Record of the group that has it. *)
Fixpoint first_value (group : list Record) (k : string) : option value :=
  match group with
  | [] => None
  | r :: group' =>
      match get r k with
      | Some v => Some v
      | None => first_value group' k
      end
  end.

(** Field builders that never raise. *)
Definition builders_total (fb : field_builders) : Prop :=
  match fb with
  | AddCallable f => forall group, exists fields, f group = Ok fields
  | AddDict d => Forall (fun kf => forall group, exists v, snd kf group = Ok v) d
  | AddOther => True
  end.

(** [gs] splits [data] into groups by key: every Record is in one group,
    no group is empty, the Records of a group have keys [==] to the
    group's key, and the keys of two different groups are not [==]. *)
Definition is_grouping (keyf : Record -> result key) (data : list Record)
    (gs : list (key * list Record)) : Prop :=
  Permutation (List.concat (map snd gs)) data
  /\ Forall (fun kg =>
               snd kg <> []
               /\ Forall (fun r => exists k, keyf r = Ok k
                                             /\ key_eq k (fst kg) = true)
                         (snd kg)) gs
  /\ ForallOrdPairs (fun kg1 kg2 => key_eq (fst kg1) (fst kg2) = false) gs.

(** The same groups: keys [==] and the same Records in each, group by
    group. *)
Definition same_groups (gs1 gs2 : list (key * list Record)) : Prop :=
  Forall2 (fun kg1 kg2 => key_eq (fst kg1) (fst kg2) = true
                          /\ Permutation (snd kg1) (snd kg2)) gs1 gs2.

(** The rows of the end-to-end scenario. *)
Definition election_rows : list Record :=
  [ [("state", VStr "NY"); ("year", VInt 2020); ("votes", VInt 10)];
    [("state", VStr "NY"); ("year", VInt 2020); ("votes", VInt 5)];
    [("state", VStr "CA"); ("year", VInt 2020); ("votes", VInt 7)] ].

(** The canonical representative of a value up to [==]. *)
Definition canon (v : value) : value :=
  match v with
  | VBool b => VInt (if b then 1 else 0)
  | _ => v
  end.

(** Two values that [<] accepts are two numbers or two strings. *)
Inductive comparable : value -> value -> Type :=
| cmp_num (x y : value) (a b : Z) :
    num_of x = Some a -> num_of y = Some b -> comparable x y
| cmp_str (s t : string) : comparable (VStr s) (VStr t).

(** [==] is an equivalence that [<] respects; where [<] answers, it is a
    strict total order up to [==], and [a <= b <= c] makes [a] and [c]
    comparable. *)
Class PyOrdLaws (K : Type) {ord : PyOrd K} : Prop := {
  rich_eq_refl : forall a, rich_eq a a = true;
  rich_eq_sym : forall a b, rich_eq a b = rich_eq b a;
  rich_eq_trans : forall a b c,
      rich_eq a b = true -> rich_eq b c = true -> rich_eq a c = true;
  rich_lt_eq_l : forall a a' b,
      rich_eq a a' = true -> rich_lt a b = rich_lt a' b;
  rich_lt_eq_r : forall a b b',
      rich_eq b b' = true -> rich_lt a b = rich_lt a b';
  rich_lt_sym_ok : forall a b t,
      rich_lt a b = Ok t -> exists t', rich_lt b a = Ok t';
  rich_lt_asym : forall a b,
      rich_lt a b = Ok true -> rich_lt b a = Ok false;
  rich_lt_not_eq : forall a b,
      rich_lt a b = Ok true -> rich_eq a b = false;
  rich_le_antisym : forall a b,
      rich_lt a b = Ok false -> rich_lt b a = Ok false -> rich_eq a b = true;
  rich_le_trans : forall a b c,
      rich_lt b a = Ok false -> rich_lt c b = Ok false -> rich_lt c a = Ok false
}.

(** No two Records of the group give values that differ to a field. *)
Definition agree (group : list Record) : Prop :=
  forall r1 r2 k v1 v2,
    In r1 group -> In r2 group ->
    get r1 k = Some v1 -> get r2 k = Some v2 -> py_eq v1 v2 = true.

(** The order and the classes [sorted] and [groupby] work with. *)
Section OrderVocabulary.
Context {A K : Type} {ord : PyOrd K}.
Variable keyf : A -> result K.

(** [a <= b] and [a < b], where [<] answers. *)
Definition kle (a b : K) : Prop := rich_lt b a = Ok false.
Definition klt (a b : K) : Prop := rich_lt a b = Ok true.

Definition ple (x y : K * A) : Prop := kle (fst x) (fst y).
Definition cmp_ok (x y : K * A) : Prop :=
  exists t, rich_lt (fst x) (fst y) = Ok t.

(** A decorated item carries the key of its row. *)
Definition keyed (p : K * A) : Prop := keyf (snd p) = Ok (fst p).

(** The key function answers on the row. *)
Definition has_key (r : A) : Prop := exists k, keyf r = Ok k.

(** Rows in ascending order of their keys. *)
Definition row_le (r1 r2 : A) : Prop :=
  exists k1 k2, keyf r1 = Ok k1 /\ keyf r2 = Ok k2 /\ kle k1 k2.

(** The key of [r] is [==] to [k]. *)
Definition in_class (k : K) (r : A) : bool :=
  match keyf r with
  | Ok k' => rich_eq k' k
  | Err _ => false
  end.

(** Groups as [groupby] makes them out of a sorted list: none is
    empty, the members of a group have keys [==] to the group's key,
    and the groups' keys increase strictly. *)
Definition well_grouped (gs : list (K * list A)) : Prop :=
  Forall (fun kg => snd kg <> []
                    /\ Forall (fun r => in_class (fst kg) r = true) (snd kg)) gs
  /\ StronglySorted (fun kg1 kg2 => klt (fst kg1) (fst kg2)) gs.

End OrderVocabulary.

Ltac solve_wf :=
  unfold wf; simpl; repeat constructor; simpl; intuition discriminate.

(** * Properties *)

(** ** Dictionaries *)

Section DictFacts.
Context {V : Type}.
Implicit Types (d : dict V) (k : string) (v : V).

Lemma get_set_same d k v : get (set d k v) k = Some v.
Proof.
  induction d as [|[k' v'] d IH]; simpl.
  - now rewrite String.eqb_refl.
  - destruct (String.eqb k' k) eqn:E; simpl; rewrite E; auto.
Qed.

Lemma get_set_other d k k' v : k <> k' -> get (set d k v) k' = get d k'.
Proof.
  intros Hne. induction d as [|[k0 v0] d IH]; simpl.
  - destruct (String.eqb k k') eqn:E; auto.
    apply String.eqb_eq in E. contradiction.
  - destruct (String.eqb k0 k) eqn:E; simpl.
    + apply String.eqb_eq in E. subst k0.
      destruct (String.eqb k k') eqn:E'; auto.
      apply String.eqb_eq in E'. contradiction.
    + now rewrite IH.
Qed.

Lemma get_none_notin d k : get d k = None <-> ~ In k (keys d).
Proof.
  induction d as [|[k' v'] d IH]; simpl.
  - tauto.
  - destruct (String.eqb k' k) eqn:E.
    + apply String.eqb_eq in E. split; [discriminate | tauto].
    + apply String.eqb_neq in E. rewrite IH. tauto.
Qed.

Lemma get_some_in d k v : get d k = Some v -> In (k, v) d.
Proof.
  induction d as [|[k' v'] d IH]; simpl; [discriminate|].
  destruct (String.eqb k' k) eqn:E.
  - apply String.eqb_eq in E. intros [= ->]. subst. now left.
  - auto.
Qed.

Lemma in_get_some d k v : wf d -> In (k, v) d -> get d k = Some v.
Proof.
  unfold wf. induction d as [|[k' v'] d IH]; simpl; [tauto|].
  intros Hnd [Heq | Hin]; inversion Hnd as [|? ? Hnotin Hnd']; subst.
  - injection Heq as -> ->. now rewrite String.eqb_refl.
  - destruct (String.eqb k' k) eqn:E; auto.
    apply String.eqb_eq in E. subst k'. exfalso. apply Hnotin.
    change k with (fst (k, v)). now apply in_map.
Qed.

Lemma get_app d1 d2 k :
  get (d1 ++ d2) k = match get d1 k with
                     | Some v => Some v
                     | None => get d2 k
                     end.
Proof.
  induction d1 as [|[k' v'] d1 IH]; simpl; auto.
  destruct (String.eqb k' k); auto.
Qed.

Lemma set_absent d k v : get d k = None -> set d k v = d ++ [(k, v)].
Proof.
  induction d as [|[k' v'] d IH]; simpl; auto.
  destruct (String.eqb k' k); [discriminate|].
  intros H. now rewrite IH.
Qed.

Lemma keys_set_present d k v : In k (keys d) -> keys (set d k v) = keys d.
Proof.
  induction d as [|[k' v'] d IH]; simpl; [tauto|].
  destruct (String.eqb k' k) eqn:E; simpl; auto.
  apply String.eqb_neq in E. intros [H | H]; [contradiction|].
  now rewrite IH.
Qed.

Lemma wf_set d k v : wf d -> wf (set d k v).
Proof.
  intros Hwf. destruct (get d k) eqn:G.
  - unfold wf. rewrite keys_set_present; auto.
    apply get_some_in in G. change k with (fst (k, v0)). now apply in_map.
  - rewrite (set_absent _ _ _ G). unfold wf, keys. rewrite map_app. simpl.
    apply get_none_notin in G.
    apply NoDup_rev in Hwf. rewrite <- (rev_involutive (map fst d ++ [k])).
    apply NoDup_rev. rewrite rev_app_distr. simpl. constructor; auto.
    now rewrite <- in_rev.
Qed.

Lemma get_update d d2 k :
  wf d2 ->
  get (update d d2) k = match get d2 k with
                        | Some v => Some v
                        | None => get d k
                        end.
Proof.
  unfold update, wf. revert d.
  induction d2 as [|[k' v'] d2 IH]; intros d Hnd; simpl; auto.
  inversion Hnd as [|? ? Hnotin Hnd']; subst.
  rewrite IH by assumption.
  destruct (String.eqb k' k) eqn:E.
  - apply String.eqb_eq in E. subst k'.
    apply get_none_notin in Hnotin. rewrite Hnotin.
    apply get_set_same.
  - apply String.eqb_neq in E. destruct (get d2 k); auto.
    now apply get_set_other.
Qed.

Lemma wf_update d d2 : wf d -> wf (update d d2).
Proof.
  unfold update. revert d. induction d2 as [|[k v] d2 IH]; simpl; auto.
  intros d Hwf. apply IH. now apply wf_set.
Qed.

(** Building a dict from pairs with distinct keys keeps them as they
    are. *)
Lemma update_fresh d d2 :
  NoDup (keys d ++ keys d2) -> update d d2 = d ++ d2.
Proof.
  unfold update. revert d.
  induction d2 as [|[k v] d2 IH]; intros d Hnd; simpl.
  - now rewrite app_nil_r.
  - rewrite set_absent.
    + rewrite IH.
      * now rewrite <- app_assoc.
      * unfold keys in *. rewrite map_app, <- app_assoc. exact Hnd.
    + apply get_none_notin. simpl in Hnd.
      apply NoDup_remove_2 in Hnd. intros Hin. apply Hnd.
      apply in_or_app. now left.
Qed.

Lemma dict_of_wf (d : dict V) : wf d -> dict_of d = d.
Proof. intros H. unfold dict_of. now rewrite update_fresh. Qed.

End DictFacts.

(** ** Loops and generators *)

Lemma foldM_app {A B : Type} (f : B -> A -> result B) (l1 l2 : list A) (acc : B) :
  foldM f (l1 ++ l2) acc = (acc' <- foldM f l1 acc ;; foldM f l2 acc').
Proof.
  revert acc. induction l1 as [|a l1 IH]; intros acc; simpl; auto.
  destruct (f acc a); simpl; auto.
Qed.

Lemma foldM_concat {A B : Type} (f : B -> A -> result B) (ls : list (list A)) (acc : B) :
  foldM (fun acc l => foldM f l acc) ls acc = foldM f (List.concat ls) acc.
Proof.
  revert acc. induction ls as [|l ls IH]; intros acc; simpl; auto.
  rewrite foldM_app. destruct (foldM f l acc); simpl; auto.
Qed.

Lemma yielded_of_list {A : Type} (l : list A) : yielded (of_list l) = l.
Proof. induction l; simpl; congruence. Qed.

Lemma to_list_of_list {A : Type} (l : list A) : to_list (of_list l) = Ok l.
Proof. induction l as [|a l IH]; simpl; auto. now rewrite IH. Qed.

Lemma gen_app_of_list {A : Type} (l1 l2 : list A) :
  gen_app (of_list l1) (of_list l2) = of_list (l1 ++ l2).
Proof. induction l1; simpl; congruence. Qed.

Lemma gen_flat_map_of_list {A B : Type} (g : A -> list B) (l : list A) :
  gen_flat_map (fun a => of_list (g a)) (of_list l)
  = of_list (List.concat (map g l)).
Proof.
  induction l as [|a l IH]; simpl; auto.
  now rewrite IH, gen_app_of_list.
Qed.

(** The [i]-th row a mapped generator yields is the image of the [i]-th
    row of its input. *)
Lemma gen_map_nth {A B : Type} (f : A -> result B) (g : gen A) (i : nat) (b : B) :
  nth_error (yielded (gen_map f g)) i = Some b ->
  exists a, nth_error (yielded g) i = Some a /\ f a = Ok b.
Proof.
  revert i. induction g as [|a g IH|e]; intros i; simpl.
  - destruct i; discriminate.
  - destruct (f a) eqn:Fa; simpl.
    + destruct i as [|i]; simpl.
      * intros [= <-]. eauto.
      * apply IH.
    + destruct i; discriminate.
  - destruct i; discriminate.
Qed.

Lemma gen_map_of_list_total {A B : Type} (f : A -> result B) (l : list A) (l' : list B) :
  Forall2 (fun a b => f a = Ok b) l l' ->
  gen_map f (of_list l) = of_list l'.
Proof.
  induction 1 as [|a b l l' Hab _ IH]; simpl; auto.
  now rewrite Hab, IH.
Qed.

(** ** Splitting and joining on the delimiter *)

Lemma split_no_delimiter (s : string) :
  no_delimiter s = true -> split delimiter s = [s].
Proof.
  unfold no_delimiter. induction s as [|c s IH]; simpl; auto.
  intros H. apply andb_true_iff in H as [Hc Hs].
  apply negb_true_iff in Hc. rewrite Hc, IH; auto.
Qed.

Lemma split_app_delimiter (s t : string) :
  no_delimiter s = true ->
  split delimiter (s ++ String delimiter t)%string = s :: split delimiter t.
Proof.
  unfold no_delimiter. induction s as [|c s IH]; simpl.
  - intros _. reflexivity.
  - intros H. apply andb_true_iff in H as [Hc Hs].
    apply negb_true_iff in Hc. rewrite Hc, IH; auto.
Qed.

(** Joining parts that are free of the delimiter and splitting again
    gives the parts back, as soon as there is one part at least. *)
Lemma split_join (parts : list string) :
  parts <> [] ->
  Forall (fun p => no_delimiter p = true) parts ->
  split delimiter (join delimiter parts) = parts.
Proof.
  unfold join. induction parts as [|p parts IH]; [congruence|].
  intros _ Hall. inversion Hall as [|? ? Hp Hparts]; subst.
  destruct parts as [|q parts].
  - simpl. now apply split_no_delimiter.
  - change (String.concat (String delimiter "") (p :: q :: parts))
      with (p ++ String delimiter (String.concat (String delimiter "") (q :: parts)))%string.
    rewrite split_app_delimiter by assumption.
    f_equal. apply IH; [discriminate | assumption].
Qed.

(** ** The value normalizer *)

Section ValueNormalizer.
Variable value_norms : dict normalizer.

Let body := fun (output : Record) (kv : string * value) =>
              val <- norm_value value_norms (fst kv) (snd kv) ;;
              Ok (set output (fst kv) val).

Lemma norm_value_missing k v :
  get value_norms k = None -> norm_value value_norms k v = Ok v.
Proof. unfold norm_value. now intros ->. Qed.

Lemma norm_value_error k v e :
  norm_value value_norms k v = Err e ->
  exists n, get value_norms k = Some n
            /\ ((n = NormOther /\ e = unknown_normalizer k)
                \/ exists f, n = NormFunc f /\ f v = Err e).
Proof.
  unfold norm_value. destruct (get value_norms k) as [[f|m|]|]; intros H.
  - exists (NormFunc f). split; auto. right. eauto.
  - discriminate.
  - injection H as <-. exists NormOther. auto.
  - discriminate.
Qed.

Lemma norm_fold_untouched row acc out k :
  foldM body row acc = Ok out -> ~ In k (keys row) -> get out k = get acc k.
Proof.
  revert acc. induction row as [|[k0 v0] row IH]; intros acc; simpl.
  - now intros [= ->].
  - unfold body at 1. simpl.
    destruct (norm_value value_norms k0 v0) as [v0'|e]; simpl; [|discriminate].
    intros H Hnotin. rewrite (IH _ H) by tauto.
    apply get_set_other. tauto.
Qed.

Lemma norm_fold_get row acc out k v :
  wf row -> foldM body row acc = Ok out -> get row k = Some v ->
  exists v', norm_value value_norms k v = Ok v' /\ get out k = Some v'.
Proof.
  unfold wf. revert acc. induction row as [|[k0 v0] row IH]; intros acc Hnd; simpl.
  - discriminate.
  - inversion Hnd as [|? ? Hnotin Hnd']; subst.
    unfold body at 1. simpl.
    destruct (norm_value value_norms k0 v0) as [v0'|e] eqn:N; simpl; [|discriminate].
    intros H. destruct (String.eqb k0 k) eqn:E.
    + apply String.eqb_eq in E. subst k0. intros [= <-].
      exists v0'. split; auto.
      rewrite (norm_fold_untouched _ _ _ _ H Hnotin). apply get_set_same.
    + intros G. eapply IH; eauto.
Qed.

Lemma norm_fold_error row acc e :
  foldM body row acc = Err e ->
  exists k v, In (k, v) row /\ norm_value value_norms k v = Err e.
Proof.
  revert acc. induction row as [|[k0 v0] row IH]; intros acc; simpl.
  - discriminate.
  - unfold body at 1. simpl.
    destruct (norm_value value_norms k0 v0) as [v0'|e'] eqn:N; simpl.
    + intros H. destruct (IH _ H) as (k & v & Hin & Hn). eauto.
    + intros [= <-]. eauto.
Qed.

Lemma norm_fold_identity row acc :
  (forall k, In k (keys row) -> get value_norms k = None) ->
  NoDup (keys acc ++ keys row) ->
  foldM body row acc = Ok (acc ++ row).
Proof.
  revert acc. induction row as [|[k0 v0] row IH]; intros acc Hmiss Hnd; simpl.
  - now rewrite app_nil_r.
  - unfold body at 1. simpl.
    rewrite norm_value_missing by (apply Hmiss; now left). simpl.
    rewrite set_absent.
    + rewrite IH.
      * now rewrite <- app_assoc.
      * intros k Hk. apply Hmiss. now right.
      * unfold keys in *. rewrite map_app, <- app_assoc. exact Hnd.
    + apply get_none_notin. simpl in Hnd. apply NoDup_remove_2 in Hnd.
      intros Hin. apply Hnd. apply in_or_app. now left.
Qed.

End ValueNormalizer.

(** ** Equality of values *)

Lemma py_eq_canon (x y : value) : py_eq x y = true <-> canon x = canon y.
Proof.
  destruct x as [|[]|a|s], y as [|[]|b|t]; cbn [py_eq canon num_of];
    try (split; [discriminate | discriminate]);
    try (split; reflexivity);
    try (rewrite Z.eqb_eq; split; [intros <- | intros [= <-]]; reflexivity);
    try (rewrite String.eqb_eq; split; [intros <- | intros [= <-]]; reflexivity).
Qed.

Lemma py_eq_refl (x : value) : py_eq x x = true.
Proof. now apply py_eq_canon. Qed.

Lemma py_eq_sym (x y : value) : py_eq x y = py_eq y x.
Proof.
  destruct (py_eq x y) eqn:E1, (py_eq y x) eqn:E2; auto.
  - apply py_eq_canon in E1. symmetry in E1. apply py_eq_canon in E1. congruence.
  - apply py_eq_canon in E2. symmetry in E2. apply py_eq_canon in E2. congruence.
Qed.

Lemma py_eq_trans (x y z : value) :
  py_eq x y = true -> py_eq y z = true -> py_eq x z = true.
Proof. rewrite !py_eq_canon. congruence. Qed.

(** ** [merge_fields] *)

Lemma get_concat (group : list Record) (k : string) :
  get (List.concat group) k = first_value group k.
Proof.
  induction group as [|r group IH]; simpl; auto.
  rewrite get_app, IH. reflexivity.
Qed.

Lemma first_value_in (group : list Record) (k : string) (v : value) :
  first_value group k = Some v -> exists r, In r group /\ get r k = Some v.
Proof.
  induction group as [|r group IH]; simpl; [discriminate|].
  destruct (get r k) eqn:G.
  - intros [= ->]. eauto.
  - intros H. destruct (IH H) as (r' & Hin & Hg). eauto.
Qed.

Lemma in_concat_get (group : list Record) (k : string) (v : value) :
  Forall wf group -> In (k, v) (List.concat group) ->
  exists r, In r group /\ get r k = Some v.
Proof.
  intros Hwf Hin. apply in_concat in Hin as (r & Hr & Hkv).
  exists r. split; auto. apply in_get_some; auto.
  rewrite Forall_forall in Hwf. auto.
Qed.

Lemma merge_item_get (acc acc' : Record) (k0 : string) (v0 : value)
    (rest : Record) (k : string) :
  merge_item acc (k0, v0) = Ok acc' ->
  get (acc' ++ rest) k = get (acc ++ (k0, v0) :: rest) k.
Proof.
  unfold merge_item. rewrite !get_app. simpl.
  destruct (get acc k0) as [old|] eqn:G.
  - destruct (negb (py_eq old v0)); [discriminate|]. intros [= <-].
    destruct (String.eqb k0 k) eqn:E; auto.
    apply String.eqb_eq in E. subst k0. now rewrite G.
  - intros [= <-]. destruct (String.eqb k0 k) eqn:E.
    + apply String.eqb_eq in E. subst k0. now rewrite get_set_same, G.
    + apply String.eqb_neq in E. now rewrite get_set_other.
Qed.

Lemma merge_item_wf (acc acc' : Record) (kv : string * value) :
  merge_item acc kv = Ok acc' -> wf acc -> wf acc'.
Proof.
  destruct kv as [k v]. unfold merge_item. destruct (get acc k) as [old|].
  - destruct (negb (py_eq old v)); [discriminate|]. now intros [= <-].
  - intros [= <-]. apply wf_set.
Qed.

(** A successful merge: every field has the value of its first
    occurrence, and every occurrence agrees with it. *)
Lemma merge_flat_ok (items acc out : Record) :
  foldM merge_item items acc = Ok out ->
  (forall k, get out k = get (acc ++ items) k)
  /\ (forall k v, In (k, v) items ->
                  exists old, get (acc ++ items) k = Some old
                              /\ py_eq old v = true)
  /\ (wf acc -> wf out).
Proof.
  revert acc. induction items as [|[k0 v0] items IH]; intros acc; cbn [foldM].
  - intros [= ->]. rewrite app_nil_r.
    split; [reflexivity | split; [intros k v [] | auto]].
  - destruct (merge_item acc (k0, v0)) as [acc'|e] eqn:M; cbn [bind]; [|discriminate].
    intros H. destruct (IH _ H) as (Hget & Hagree & Hwf).
    split; [|split].
    + intros k. rewrite Hget. now apply merge_item_get.
    + intros k v [[= -> ->] | Hin].
      * rewrite get_app. simpl. rewrite String.eqb_refl.
        unfold merge_item in M. destruct (get acc k) as [old|].
        -- exists old. split; auto.
           destruct (py_eq old v); [reflexivity | discriminate].
        -- exists v. split; auto. apply py_eq_refl.
      * destruct (Hagree _ _ Hin) as (old & Hold & Heq).
        exists old. split; auto.
        now rewrite <- (merge_item_get _ _ _ _ _ _ M).
    + intros Hacc. apply Hwf. eapply merge_item_wf; eauto.
Qed.

(** A failed merge reports an occurrence that differs from the first
    occurrence of its field. *)
Lemma merge_flat_err (items acc : Record) (e : exn) :
  foldM merge_item items acc = Err e ->
  exists k v old,
    In (k, v) items /\ get (acc ++ items) k = Some old
    /\ py_eq old v = false /\ e = merge_conflict k v old.
Proof.
  revert acc. induction items as [|[k0 v0] items IH]; intros acc; cbn [foldM].
  - discriminate.
  - destruct (merge_item acc (k0, v0)) as [acc'|e'] eqn:M; cbn [bind].
    + intros H. destruct (IH _ H) as (k & v & old & Hin & Hg & Hne & He).
      exists k, v, old. split; [now right|]. split; [|split; assumption].
      now rewrite <- (merge_item_get _ _ _ _ _ _ M).
    + intros [= <-]. unfold merge_item in M.
      destruct (get acc k0) as [old|] eqn:G; [|discriminate].
      destruct (py_eq old v0) eqn:E; simpl in M; [discriminate|].
      injection M as <-. exists k0, v0, old.
      split; [now left|]. split; [|split; [assumption | reflexivity]].
      rewrite get_app. now rewrite G.
Qed.

Lemma merge_fresh (r acc : Record) :
  NoDup (keys acc ++ keys r) -> foldM merge_item r acc = Ok (acc ++ r).
Proof.
  revert acc. induction r as [|[k v] r IH]; intros acc Hnd; simpl.
  - now rewrite app_nil_r.
  - assert (G : get acc k = None).
    { apply get_none_notin. simpl in Hnd. apply NoDup_remove_2 in Hnd.
      intros Hin. apply Hnd. apply in_or_app. now left. }
    rewrite G. simpl. rewrite (set_absent _ _ _ G), IH.
    + now rewrite <- app_assoc.
    + unfold keys in *. rewrite map_app, <- app_assoc. exact Hnd.
Qed.

Lemma merge_absorb (items acc : Record) :
  (forall k v, In (k, v) items ->
               exists old, get acc k = Some old /\ py_eq old v = true) ->
  foldM merge_item items acc = Ok acc.
Proof.
  induction items as [|[k v] items IH]; intros H; simpl; auto.
  destruct (H k v) as (old & G & E); [now left|].
  rewrite G, E. simpl. apply IH. intros k' v' Hin. apply H. now right.
Qed.

Lemma merge_fields_flat (group : list Record) :
  merge_fields group = foldM merge_item (List.concat group) [].
Proof. unfold merge_fields. apply foldM_concat. Qed.

(** ** The order of values *)

Lemma ascii_compare_refl (c : ascii) : Ascii.compare c c = Eq.
Proof. unfold Ascii.compare. apply N.compare_refl. Qed.

Lemma string_compare_refl (s : string) : String.compare s s = Eq.
Proof.
  induction s as [|c s IH]; simpl; auto. now rewrite ascii_compare_refl.
Qed.

Lemma string_compare_trans (a b c : string) :
  String.compare a b = Lt -> String.compare b c = Lt -> String.compare a c = Lt.
Proof.
  revert b c. induction a as [|x a IH]; intros [|y b] [|z c]; simpl;
    try discriminate; auto.
  destruct (Ascii.compare x y) eqn:Exy; try discriminate.
  - apply Ascii.compare_eq_iff in Exy. subst y.
    destruct (Ascii.compare x z); try discriminate; auto.
    apply IH.
  - intros _. destruct (Ascii.compare y z) eqn:Eyz; try discriminate.
    + apply Ascii.compare_eq_iff in Eyz. subst z. now rewrite Exy.
    + intros _. unfold Ascii.compare in *.
      rewrite N.compare_lt_iff in Exy, Eyz.
      assert (H : (N_of_ascii x < N_of_ascii z)%N) by lia.
      apply N.compare_lt_iff in H. now rewrite H.
Qed.

Lemma string_ltb_asym (s t : string) :
  String.ltb s t = true -> String.ltb t s = false.
Proof.
  unfold String.ltb. rewrite (String.compare_antisym t s).
  destruct (String.compare s t); simpl; congruence.
Qed.

Lemma string_ltb_neq (s t : string) :
  String.ltb s t = true -> String.eqb s t = false.
Proof.
  unfold String.ltb. intros H. apply String.eqb_neq. intros ->.
  rewrite string_compare_refl in H. discriminate.
Qed.

Lemma string_leb_antisym (s t : string) :
  String.ltb s t = false -> String.ltb t s = false -> String.eqb s t = true.
Proof.
  unfold String.ltb. rewrite (String.compare_antisym t s).
  destruct (String.compare s t) eqn:E; simpl; try discriminate.
  intros _ _. apply String.eqb_eq. now apply String.compare_eq_iff.
Qed.

Lemma string_leb_trans (a b c : string) :
  String.ltb b a = false -> String.ltb c b = false -> String.ltb c a = false.
Proof.
  unfold String.ltb. intros Hba Hcb.
  destruct (String.compare c a) eqn:Eca; auto. exfalso.
  destruct (String.compare c b) eqn:Ecb; try discriminate.
  - apply String.compare_eq_iff in Ecb. subst c. now rewrite Eca in Hba.
  - destruct (String.compare b a) eqn:Eba; try discriminate.
    + apply String.compare_eq_iff in Eba. subst b. congruence.
    + rewrite String.compare_antisym in Ecb, Eba.
      destruct (String.compare b c) eqn:Ebc; try discriminate.
      destruct (String.compare a b) eqn:Eab; try discriminate.
      pose proof (string_compare_trans _ _ _ Eab Ebc) as Hac.
      rewrite String.compare_antisym, Eca in Hac. discriminate.
Qed.

Lemma py_lt_inv (x y : value) (t : bool) :
  py_lt x y = Ok t -> comparable x y.
Proof.
  destruct x as [|bx|a|s], y as [|b_y|b|u]; cbn [py_lt num_of];
    try discriminate; intros _;
    try (eapply cmp_num; reflexivity); apply cmp_str.
Qed.

Lemma py_lt_num (x y : value) (a b : Z) :
  num_of x = Some a -> num_of y = Some b -> py_lt x y = Ok (a <? b)%Z.
Proof.
  destruct x as [|bx|a'|s], y as [|b_y|b'|u]; cbn [py_lt num_of];
    try discriminate; intros [= <-] [= <-]; reflexivity.
Qed.

Lemma py_eq_num (x y : value) (a b : Z) :
  num_of x = Some a -> num_of y = Some b -> py_eq x y = (a =? b)%Z.
Proof.
  destruct x as [|bx|a'|s], y as [|b_y|b'|u]; cbn [py_eq num_of];
    try discriminate; intros [= <-] [= <-]; reflexivity.
Qed.

Lemma py_eq_num_of (x y : value) :
  py_eq x y = true -> num_of x = num_of y.
Proof.
  intros H. apply py_eq_canon in H.
  destruct x as [|[]|a|s], y as [|[]|b|u]; cbn [canon num_of] in *;
    congruence.
Qed.

Lemma py_lt_eq_l (a a' b : value) :
  py_eq a a' = true -> py_lt a b = py_lt a' b.
Proof.
  intros H. pose proof (py_eq_num_of _ _ H) as Hn.
  destruct a as [|ba|za|sa], a' as [|ba'|za'|sa'];
    cbn [py_eq num_of] in H; try discriminate;
    try (apply String.eqb_eq in H; subst; reflexivity);
    destruct b as [|bb|zb|sb]; cbn [py_lt num_of] in *; congruence.
Qed.

Lemma py_lt_eq_r (a b b' : value) :
  py_eq b b' = true -> py_lt a b = py_lt a b'.
Proof.
  intros H. pose proof (py_eq_num_of _ _ H) as Hn.
  destruct b as [|bb|zb|sb], b' as [|bb'|zb'|sb'];
    cbn [py_eq num_of] in H; try discriminate;
    try (apply String.eqb_eq in H; subst; reflexivity);
    destruct a as [|ba|za|sa]; cbn [py_lt num_of] in *; congruence.
Qed.

Lemma py_lt_sym_ok (a b : value) (t : bool) :
  py_lt a b = Ok t -> exists t', py_lt b a = Ok t'.
Proof.
  intros H. destruct (py_lt_inv _ _ _ H) as [x y p q Hp Hq | s u].
  - rewrite (py_lt_num _ _ _ _ Hq Hp). eauto.
  - simpl. eauto.
Qed.

Lemma py_lt_asym (a b : value) :
  py_lt a b = Ok true -> py_lt b a = Ok false.
Proof.
  intros H. destruct (py_lt_inv _ _ _ H) as [x y p q Hp Hq | s u].
  - rewrite (py_lt_num _ _ _ _ Hp Hq) in H. rewrite (py_lt_num _ _ _ _ Hq Hp).
    injection H as H. f_equal. lia.
  - simpl in *. injection H as H. f_equal. now apply string_ltb_asym.
Qed.

Lemma py_lt_not_eq (a b : value) :
  py_lt a b = Ok true -> py_eq a b = false.
Proof.
  intros H. destruct (py_lt_inv _ _ _ H) as [x y p q Hp Hq | s u].
  - rewrite (py_lt_num _ _ _ _ Hp Hq) in H. rewrite (py_eq_num _ _ _ _ Hp Hq).
    injection H as H. lia.
  - simpl in *. injection H as H. now apply string_ltb_neq.
Qed.

Lemma py_le_antisym (a b : value) :
  py_lt a b = Ok false -> py_lt b a = Ok false -> py_eq a b = true.
Proof.
  intros H H'. destruct (py_lt_inv _ _ _ H) as [x y p q Hp Hq | s u].
  - rewrite (py_lt_num _ _ _ _ Hp Hq) in H.
    rewrite (py_lt_num _ _ _ _ Hq Hp) in H'.
    rewrite (py_eq_num _ _ _ _ Hp Hq).
    injection H as H. injection H' as H'. lia.
  - simpl in *. injection H as H. injection H' as H'.
    now apply string_leb_antisym.
Qed.

Lemma py_le_trans (a b c : value) :
  py_lt b a = Ok false -> py_lt c b = Ok false -> py_lt c a = Ok false.
Proof.
  intros H H'.
  destruct (py_lt_inv _ _ _ H) as [x y p q Hp Hq | s u].
  - destruct (py_lt_inv _ _ _ H') as [x' y' p' q' Hp' Hq' | s' u'].
    + rewrite (py_lt_num _ _ _ _ Hp Hq) in H.
      rewrite (py_lt_num _ _ _ _ Hp' Hq') in H'.
      rewrite (py_lt_num _ _ _ _ Hp' Hq).
      assert (q' = p) by congruence. subst q'.
      injection H as H. injection H' as H'. f_equal. lia.
    + discriminate.
  - destruct c as [|bc|zc|sc]; cbn [py_lt num_of] in *; try discriminate.
    injection H as H. injection H' as H'. f_equal.
    eapply string_leb_trans; eauto.
Qed.

Lemma py_eq_eq_l (a a' b : value) :
  py_eq a a' = true -> py_eq a b = py_eq a' b.
Proof.
  intros H. destruct (py_eq a b) eqn:E1, (py_eq a' b) eqn:E2; auto.
  - rewrite py_eq_sym in H. rewrite (py_eq_trans _ _ _ H E1) in E2. discriminate.
  - rewrite (py_eq_trans _ _ _ H E2) in E1. discriminate.
Qed.

Lemma py_eq_eq_r (a b b' : value) :
  py_eq b b' = true -> py_eq a b = py_eq a b'.
Proof.
  intros H. rewrite (py_eq_sym a b), (py_eq_sym a b'). now apply py_eq_eq_l.
Qed.

(** ** The laws [sorted] and [groupby] rely on *)

(** *** Tuples *)

Lemma tuple_eq_refl (xs : list value) : tuple_eq xs xs = true.
Proof. induction xs; simpl; auto. now rewrite py_eq_refl. Qed.

Lemma tuple_eq_sym (xs ys : list value) : tuple_eq xs ys = tuple_eq ys xs.
Proof.
  revert ys. induction xs as [|x xs IH]; intros [|y ys]; simpl; auto.
  now rewrite py_eq_sym, IH.
Qed.

Lemma tuple_eq_trans (xs ys zs : list value) :
  tuple_eq xs ys = true -> tuple_eq ys zs = true -> tuple_eq xs zs = true.
Proof.
  revert ys zs. induction xs as [|x xs IH]; intros [|y ys] [|z zs]; simpl;
    try discriminate; auto.
  rewrite !andb_true_iff. intros [H1 H2] [H3 H4]. split.
  - eapply py_eq_trans; eauto.
  - eapply IH; eauto.
Qed.

Lemma tuple_lt_eq_l (xs xs' ys : list value) :
  tuple_eq xs xs' = true -> tuple_lt xs ys = tuple_lt xs' ys.
Proof.
  revert xs' ys. induction xs as [|x xs IH]; intros [|x' xs'] [|y ys]; simpl;
    try discriminate; auto.
  rewrite andb_true_iff. intros [H1 H2].
  rewrite (py_eq_eq_l _ _ _ H1), (py_lt_eq_l _ _ _ H1), (IH _ _ H2).
  reflexivity.
Qed.

Lemma tuple_lt_eq_r (xs ys ys' : list value) :
  tuple_eq ys ys' = true -> tuple_lt xs ys = tuple_lt xs ys'.
Proof.
  revert ys ys'. induction xs as [|x xs IH]; intros [|y ys] [|y' ys']; simpl;
    try discriminate; auto.
  rewrite andb_true_iff. intros [H1 H2].
  rewrite (py_eq_eq_r _ _ _ H1), (py_lt_eq_r _ _ _ H1), (IH _ _ H2).
  reflexivity.
Qed.

Lemma tuple_lt_sym_ok (xs ys : list value) (t : bool) :
  tuple_lt xs ys = Ok t -> exists t', tuple_lt ys xs = Ok t'.
Proof.
  revert ys t. induction xs as [|x xs IH]; intros [|y ys] t; simpl; eauto.
  rewrite (py_eq_sym y x). destruct (py_eq x y).
  - apply IH.
  - apply py_lt_sym_ok.
Qed.

Lemma tuple_lt_asym (xs ys : list value) :
  tuple_lt xs ys = Ok true -> tuple_lt ys xs = Ok false.
Proof.
  revert ys. induction xs as [|x xs IH]; intros [|y ys]; simpl;
    try discriminate; auto.
  rewrite (py_eq_sym y x). destruct (py_eq x y).
  - apply IH.
  - apply py_lt_asym.
Qed.

Lemma tuple_lt_not_eq (xs ys : list value) :
  tuple_lt xs ys = Ok true -> tuple_eq xs ys = false.
Proof.
  revert ys. induction xs as [|x xs IH]; intros [|y ys]; simpl;
    try discriminate; auto.
  destruct (py_eq x y); simpl; auto.
Qed.

Lemma tuple_le_antisym (xs ys : list value) :
  tuple_lt xs ys = Ok false -> tuple_lt ys xs = Ok false ->
  tuple_eq xs ys = true.
Proof.
  revert ys. induction xs as [|x xs IH]; intros [|y ys]; simpl;
    try discriminate; auto.
  rewrite (py_eq_sym y x). destruct (py_eq x y) eqn:E; simpl.
  - apply IH.
  - intros H1 H2. rewrite (py_le_antisym _ _ H1 H2) in E. discriminate.
Qed.

Lemma tuple_le_trans (xs ys zs : list value) :
  tuple_lt ys xs = Ok false -> tuple_lt zs ys = Ok false ->
  tuple_lt zs xs = Ok false.
Proof.
  revert ys zs. induction xs as [|x xs IH]; intros [|y ys] [|z zs]; simpl;
    try discriminate; auto.
  destruct (py_eq y x) eqn:Eyx, (py_eq z y) eqn:Ezy.
  - rewrite (py_eq_trans _ _ _ Ezy Eyx). apply IH.
  - intros _ H. rewrite <- (py_eq_eq_r z y x Eyx), Ezy.
    now rewrite <- (py_lt_eq_r z y x Eyx).
  - intros H _. rewrite (py_eq_eq_l z y x Ezy), Eyx.
    now rewrite (py_lt_eq_l z y x Ezy).
  - intros H1 H2. pose proof (py_le_trans _ _ _ H1 H2) as H3.
    destruct (py_eq z x) eqn:Ezx; auto. exfalso.
    rewrite (py_lt_eq_l z x y Ezx) in H2.
    rewrite (py_le_antisym _ _ H1 H2) in Eyx. discriminate.
Qed.

(** *** Keys *)

#[export] Instance key_laws : PyOrdLaws key.
Proof.
  constructor; cbn [rich_eq rich_lt key_ord].
  - intros [fs xs|x]; simpl; [apply tuple_eq_refl | apply py_eq_refl].
  - intros [fs xs|x] [gs ys|y]; simpl; auto;
      [apply tuple_eq_sym | apply py_eq_sym].
  - intros [fs xs|x] [gs ys|y] [hs zs|z]; simpl; try discriminate;
      [apply tuple_eq_trans | apply py_eq_trans].
  - intros [fs xs|x] [gs ys|y] [hs zs|z]; simpl; try discriminate; auto;
      [apply tuple_lt_eq_l | apply py_lt_eq_l].
  - intros [fs xs|x] [gs ys|y] [hs zs|z]; simpl; try discriminate; auto;
      [apply tuple_lt_eq_r | apply py_lt_eq_r].
  - intros [fs xs|x] [gs ys|y] t; simpl; try discriminate;
      [apply tuple_lt_sym_ok | apply py_lt_sym_ok].
  - intros [fs xs|x] [gs ys|y]; simpl; try discriminate;
      [apply tuple_lt_asym | apply py_lt_asym].
  - intros [fs xs|x] [gs ys|y]; simpl; try discriminate;
      [apply tuple_lt_not_eq | apply py_lt_not_eq].
  - intros [fs xs|x] [gs ys|y]; simpl; try discriminate;
      [apply tuple_le_antisym | apply py_le_antisym].
  - intros [fs xs|x] [gs ys|y] [hs zs|z]; simpl; try discriminate;
      [apply tuple_le_trans | apply py_le_trans].
Qed.

(** ** [sorted] and [groupby] under the laws *)

Lemma mapM_map {A B C : Type} (f : A -> result B) (g : B -> C) (h : A -> C)
    (l : list A) (l' : list B) :
  (forall a b, f a = Ok b -> g b = h a) ->
  mapM f l = Ok l' -> map g l' = map h l.
Proof.
  intros Hfg. revert l'. induction l as [|a l IH]; intros l'; simpl.
  - now intros [= <-].
  - destruct (f a) as [b|] eqn:Fa; simpl; [|discriminate].
    destruct (mapM f l) as [bs|]; simpl; [|discriminate].
    intros [= <-]. simpl. now rewrite (Hfg _ _ Fa), (IH bs).
Qed.

Lemma filter_all {A : Type} (p : A -> bool) (l : list A) :
  Forall (fun a => p a = true) l -> filter p l = l.
Proof.
  induction 1 as [|a l Ha _ IH]; simpl; auto. now rewrite Ha, IH.
Qed.

Lemma filter_none {A : Type} (p : A -> bool) (l : list A) :
  Forall (fun a => p a = false) l -> filter p l = [].
Proof.
  induction 1 as [|a l Ha _ IH]; simpl; auto. now rewrite Ha.
Qed.

Lemma filter_perm {A : Type} (p : A -> bool) (l l' : list A) :
  Permutation l l' -> Permutation (filter p l) (filter p l').
Proof.
  induction 1 as [|a l l' _ IH|a b l|l l' l'' _ IH1 _ IH2]; simpl.
  - constructor.
  - destruct (p a); auto.
  - destruct (p a), (p b); auto. constructor.
  - eapply Permutation_trans; eauto.
Qed.

Lemma pairs_perm {A : Type} (R : A -> A -> Prop) (l l' : list A) :
  (forall a b, R a b -> R b a) ->
  Permutation l l' -> ForallOrdPairs R l -> ForallOrdPairs R l'.
Proof.
  intros Hsym. induction 1 as [|a l l' Hp IH|a b l|l l' l'' _ IH1 _ IH2];
    intros H; auto.
  - inversion H as [|? ? Ha Hl]; subst. constructor; auto.
    eapply Permutation_Forall; eauto.
  - inversion H as [|? ? Hb Hl]; subst.
    inversion Hl as [|? ? Ha Hl']; subst.
    inversion Hb as [|? ? Hba Hb']; subst.
    repeat constructor; auto.
Qed.

Section SortGroupFacts.
Context {A K : Type} {ord : PyOrd K} {laws : PyOrdLaws K}.
Variable keyf : A -> result K.

Lemma kle_neq_klt a b : kle a b -> rich_eq a b = false -> klt a b.
Proof.
  unfold kle, klt. intros Hle Hne.
  destruct (rich_lt_sym_ok _ _ _ Hle) as [[] Ht]; auto.
  rewrite (rich_le_antisym _ _ Ht Hle) in Hne. discriminate.
Qed.

Lemma klt_kle a b : klt a b -> kle a b.
Proof. apply rich_lt_asym. Qed.

Lemma klt_trans a b c : klt a b -> klt b c -> klt a c.
Proof.
  intros Hab Hbc.
  pose proof (rich_le_trans a b c (klt_kle _ _ Hab) (klt_kle _ _ Hbc)) as Hac.
  apply kle_neq_klt; auto.
  destruct (rich_eq a c) eqn:E; auto. exfalso.
  unfold klt in Hab. rewrite (rich_lt_eq_l _ _ _ E) in Hab.
  apply rich_lt_asym in Hbc. congruence.
Qed.

Lemma cmp_ok_sym (x y : K * A) : cmp_ok x y -> cmp_ok y x.
Proof. intros [t Ht]. eapply rich_lt_sym_ok; eauto. Qed.

(** *** Insertion *)

Lemma insert_perm (x : K * A) s r :
  insert x s = Ok r -> Permutation r (x :: s).
Proof.
  revert r. induction s as [|y s IH]; intros r; simpl.
  - now intros [= <-].
  - destruct (rich_lt (fst y) (fst x)) as [[]|]; simpl; try discriminate.
    + destruct (insert x s) as [r'|]; simpl; [|discriminate].
      intros [= <-]. rewrite perm_swap. constructor. now apply IH.
    + now intros [= <-].
Qed.

Lemma insert_sorted (x : K * A) s r :
  StronglySorted ple s -> insert x s = Ok r -> StronglySorted ple r.
Proof.
  revert r. induction s as [|y s IH]; intros r Hs; simpl.
  - intros [= <-]. repeat constructor.
  - apply StronglySorted_inv in Hs as [Hs Hy].
    destruct (rich_lt (fst y) (fst x)) as [[]|] eqn:L; simpl; try discriminate.
    + destruct (insert x s) as [r'|] eqn:I; simpl; [|discriminate].
      intros [= <-]. constructor; [now apply IH|].
      apply insert_perm in I.
      eapply Permutation_Forall; [symmetry; exact I|].
      constructor; auto. now apply klt_kle.
    + intros [= <-]. constructor; [now constructor|].
      constructor; [exact L|].
      eapply Forall_impl; [|exact Hy].
      intros z Hz. unfold ple, kle in *. eapply rich_le_trans; eauto.
Qed.

Lemma insert_total (x : K * A) s :
  Forall (fun y => cmp_ok y x) s -> exists r, insert x s = Ok r.
Proof.
  induction 1 as [|y s [t Ht] _ [r IH]]; simpl; eauto.
  rewrite Ht. simpl. destruct t; eauto. rewrite IH. simpl. eauto.
Qed.

(** *** The sort *)

Lemma isort_spec (l s : list (K * A)) :
  isort l = Ok s -> Permutation s l /\ StronglySorted ple s.
Proof.
  revert s. induction l as [|x l IH]; intros s; simpl.
  - intros [= <-]. split; constructor.
  - destruct (isort l) as [s'|]; simpl; [|discriminate].
    destruct (IH _ eq_refl) as [Hp Hs]. intros I. split.
    + rewrite (insert_perm _ _ _ I). now constructor.
    + eapply insert_sorted; eauto.
Qed.

Lemma sorted_cmp_ok (s : list (K * A)) : StronglySorted ple s -> ForallOrdPairs cmp_ok s.
Proof.
  induction 1 as [|x s _ IH Hx]; constructor; auto.
  eapply Forall_impl; [|exact Hx].
  intros y Hy. apply cmp_ok_sym. now exists false.
Qed.

(** Answers of [<] along a sorted arrangement, each item against the
    next one, are enough for [<] to answer on every pair. *)
Lemma chain_cmp_ok (s : list (K * A)) : Sorted ple s -> ForallOrdPairs cmp_ok s.
Proof.
  intros Hs. apply sorted_cmp_ok. apply Sorted_StronglySorted; auto.
  intros x y z Hxy Hyz. unfold ple, kle in *. eapply rich_le_trans; eauto.
Qed.

Lemma isort_total (l : list (K * A)) : ForallOrdPairs cmp_ok l -> exists s, isort l = Ok s.
Proof.
  induction 1 as [|x l Hx _ [s IH]]; simpl; eauto.
  rewrite IH. simpl. apply insert_total.
  apply isort_spec in IH as [Hp _].
  eapply Permutation_Forall; [symmetry; exact Hp|].
  eapply Forall_impl; [|exact Hx]. intros y. apply cmp_ok_sym.
Qed.

Lemma isort_perm_total (l1 l2 s1 : list (K * A)) :
  Permutation l1 l2 -> isort l1 = Ok s1 -> exists s2, isort l2 = Ok s2.
Proof.
  intros Hp I. apply isort_total.
  apply isort_spec in I as [Hp1 Hs].
  apply (pairs_perm cmp_ok s1); auto using cmp_ok_sym, sorted_cmp_ok.
  now rewrite Hp1.
Qed.

(** *** Decoration *)

Lemma decorate_spec l kl :
  decorate keyf l = Ok kl -> map snd kl = l /\ Forall (keyed keyf) kl.
Proof.
  unfold decorate. revert kl. induction l as [|a l IH]; intros kl; simpl.
  - intros [= <-]. split; constructor.
  - destruct (keyf a) as [k|] eqn:Ka; simpl; [|discriminate].
    destruct (mapM _ l) as [kl'|]; simpl; [|discriminate].
    destruct (IH _ eq_refl) as [Hm Hk]. intros [= <-]. simpl. split.
    + now rewrite Hm.
    + constructor; auto.
Qed.

Lemma decorate_perm l1 l2 :
  Permutation l1 l2 ->
  forall k1, decorate keyf l1 = Ok k1 ->
             exists k2, decorate keyf l2 = Ok k2 /\ Permutation k1 k2.
Proof.
  unfold decorate.
  induction 1 as [|a l l' _ IH|a b l|l l' l'' _ IH1 _ IH2]; intros k1; simpl.
  - intros [= <-]. eauto.
  - destruct (keyf a) as [k|]; simpl; [|discriminate].
    destruct (mapM _ l) as [kl|]; simpl; [|discriminate].
    destruct (IH _ eq_refl) as (k2 & -> & Hp). intros [= <-]. simpl. eauto.
  - destruct (keyf b) as [kb|]; simpl; [|discriminate].
    destruct (keyf a) as [ka|]; simpl; [|discriminate].
    destruct (mapM _ l) as [kl|]; simpl; [|discriminate].
    intros [= <-]. eexists. split; [reflexivity | constructor].
  - intros H1. destruct (IH1 _ H1) as (k2 & H2 & Hp12).
    destruct (IH2 _ H2) as (k3 & H3 & Hp23).
    exists k3. split; auto. eapply Permutation_trans; eauto.
Qed.

Lemma decorate_total l :
  Forall (fun a => exists k, keyf a = Ok k) l ->
  exists kl, decorate keyf l = Ok kl.
Proof.
  unfold decorate. induction 1 as [|a l [k Hk] _ [kl IH]]; simpl; eauto.
  rewrite Hk, IH. simpl. eauto.
Qed.

(** *** [sorted] *)

Lemma sorted_rows s :
  Forall (keyed keyf) s -> StronglySorted ple s -> StronglySorted (row_le keyf) (map snd s).
Proof.
  intros Hk Hs. induction Hs as [|x s Hs IH Hx]; simpl; constructor.
  - apply IH. now inversion Hk.
  - inversion Hk as [|? ? Kx Ks]; subst.
    rewrite Forall_map. rewrite Forall_forall in *.
    intros y Hy. exists (fst x), (fst y). repeat split; auto.
    + now apply Ks.
    + now apply Hx.
Qed.

Lemma sorted_spec l d :
  sorted keyf l = Ok d ->
  Permutation d l /\ StronglySorted (row_le keyf) d /\ Forall (has_key keyf) d.
Proof.
  unfold sorted.
  destruct (decorate keyf l) as [kl|] eqn:D; simpl; [|discriminate].
  destruct (isort kl) as [s|] eqn:I; simpl; [|discriminate].
  intros [= <-]. apply decorate_spec in D as [Hm Hk].
  apply isort_spec in I as [Hp Hs].
  assert (Hks : Forall (keyed keyf) s)
    by (eapply Permutation_Forall; [symmetry; exact Hp | exact Hk]).
  split; [|split].
  - rewrite <- Hm. now apply Permutation_map.
  - now apply sorted_rows.
  - rewrite Forall_map. eapply Forall_impl; [|exact Hks].
    intros p Hp'. now exists (fst p).
Qed.

Lemma sorted_perm_total l1 l2 d1 :
  Permutation l1 l2 -> sorted keyf l1 = Ok d1 ->
  exists d2, sorted keyf l2 = Ok d2.
Proof.
  unfold sorted. intros Hp.
  destruct (decorate keyf l1) as [k1|] eqn:D; simpl; [|discriminate].
  destruct (isort k1) as [s1|] eqn:I; simpl; [|discriminate].
  intros _. destruct (decorate_perm _ _ Hp _ D) as (k2 & D2 & Hk).
  destruct (isort_perm_total _ _ _ Hk I) as (s2 & I2).
  rewrite D2. simpl. rewrite I2. simpl. eauto.
Qed.

Lemma sorted_total l :
  Forall (has_key keyf) l ->
  (forall r1 r2 k1 k2, In r1 l -> In r2 l ->
                       keyf r1 = Ok k1 -> keyf r2 = Ok k2 ->
                       exists t, rich_lt k1 k2 = Ok t) ->
  exists d, sorted keyf l = Ok d.
Proof.
  intros Hk Hc. unfold sorted.
  destruct (decorate_total _ Hk) as [kl D]. rewrite D. simpl.
  destruct (decorate_spec _ _ D) as [Hm Hkl].
  destruct (isort_total kl) as [s I]; [|rewrite I; simpl; eauto].
  apply ForallPairs_ForallOrdPairs. intros x y Hx Hy.
  rewrite Forall_forall in Hkl.
  apply (Hc (snd x) (snd y)); try (now apply Hkl);
    rewrite <- Hm; now apply in_map.
Qed.

End SortGroupFacts.

Section GroupFacts.
Context {A K : Type} {ord : PyOrd K} {laws : PyOrdLaws K}.
Variable keyf : A -> result K.

Lemma groupby_from_spec d :
  forall tgt acc,
    StronglySorted (row_le keyf) d ->
    Forall (fun r => exists k, keyf r = Ok k /\ kle tgt k) d ->
    exists g0 gs,
      groupby_from keyf tgt acc d = of_list ((tgt, rev acc ++ g0) :: gs)
      /\ d = g0 ++ List.concat (map snd gs)
      /\ Forall (fun r => in_class keyf tgt r = true) g0
      /\ well_grouped keyf gs
      /\ Forall (fun kg => klt tgt (fst kg)) gs.
Proof.
  induction d as [|x d IH]; intros tgt acc Hs Hge.
  - exists [], []. simpl. rewrite app_nil_r. repeat split; constructor.
  - apply StronglySorted_inv in Hs as [Hs Hx].
    inversion Hge as [|? ? (k & Kx & Hle) Hge']; subst.
    simpl. rewrite Kx. destruct (rich_eq k tgt) eqn:E.
    + destruct (IH tgt (x :: acc) Hs Hge') as (g0 & gs & -> & Hd & Hg0 & Hwg & Hlt).
      exists (x :: g0), gs. simpl. rewrite <- app_assoc. simpl.
      repeat split; auto.
      * now rewrite Hd.
      * constructor; auto. unfold in_class. now rewrite Kx.
      * apply Hwg.
      * apply Hwg.
    + assert (Hge'' : Forall (fun r => exists k', keyf r = Ok k' /\ kle k k') d).
      { eapply Forall_impl; [|exact Hx].
        intros r (k1 & k2 & K1 & K2 & Hk). exists k2. split; auto. congruence. }
      destruct (IH k [x] Hs Hge'') as (g0 & gs & -> & Hd & Hg0 & [Hm Hss] & Hlt).
      assert (Hk : klt tgt k).
      { apply kle_neq_klt; auto. now rewrite rich_eq_sym. }
      exists [], ((k, x :: g0) :: gs). simpl. rewrite app_nil_r.
      repeat split; auto.
      * now rewrite Hd.
      * constructor; auto. simpl. split; [discriminate|].
        constructor; auto. unfold in_class. rewrite Kx. apply rich_eq_refl.
      * constructor; auto.
      * constructor; auto. eapply Forall_impl; [|exact Hlt].
        intros kg. simpl. now apply klt_trans.
Qed.

Lemma groupby_spec d :
  StronglySorted (row_le keyf) d -> Forall (has_key keyf) d ->
  exists gs, groupby keyf d = of_list gs
             /\ List.concat (map snd gs) = d
             /\ well_grouped keyf gs.
Proof.
  destruct d as [|x d]; intros Hs Hk.
  - exists []. repeat split; constructor.
  - inversion Hk as [|? ? [k Kx] _]; subst.
    apply StronglySorted_inv in Hs as [Hs Hx].
    assert (Hge : Forall (fun r => exists k', keyf r = Ok k' /\ kle k k') d).
    { eapply Forall_impl; [|exact Hx].
      intros r (k1 & k2 & K1 & K2 & Hle). exists k2. split; auto. congruence. }
    destruct (groupby_from_spec d k [x] Hs Hge)
      as (g0 & gs & Hg & Hd & Hg0 & [Hm Hss] & Hlt).
    exists ((k, x :: g0) :: gs). simpl. rewrite Kx. repeat split; auto.
    + now rewrite Hd.
    + constructor; auto. simpl. split; [discriminate|].
      constructor; auto. unfold in_class. rewrite Kx. apply rich_eq_refl.
    + constructor; auto.
Qed.

(** *** Groups of two permutations of the same rows *)

Lemma in_class_eq k k' r :
  rich_eq k k' = true -> in_class keyf k r = in_class keyf k' r.
Proof.
  intros E. unfold in_class. destruct (keyf r) as [kr|]; auto.
  destruct (rich_eq kr k) eqn:E1, (rich_eq kr k') eqn:E2; auto.
  - rewrite (rich_eq_trans _ _ _ E1 E) in E2. discriminate.
  - rewrite rich_eq_sym in E. rewrite (rich_eq_trans _ _ _ E2 E) in E1.
    discriminate.
Qed.

Lemma in_class_later k k' r :
  klt k k' -> in_class keyf k' r = true -> in_class keyf k r = false.
Proof.
  unfold in_class. destruct (keyf r) as [kr|]; [|discriminate].
  intros Hlt E'. destruct (rich_eq kr k) eqn:E; auto. exfalso.
  apply rich_lt_not_eq in Hlt. rewrite rich_eq_sym in E.
  rewrite (rich_eq_trans _ _ _ E E') in Hlt. discriminate.
Qed.

Lemma later_groups_out k gs :
  Forall (fun kg => klt k (fst kg)) gs ->
  Forall (fun kg => Forall (fun r => in_class keyf (fst kg) r = true) (snd kg)) gs ->
  Forall (fun r => in_class keyf k r = false) (List.concat (map snd gs)).
Proof.
  induction 1 as [|[k' g] gs Hk _ IH]; intros Hm; simpl.
  - constructor.
  - inversion Hm as [|? ? Hg Hm']; subst. apply Forall_app. split; auto.
    eapply Forall_impl; [|exact Hg]. intros r. now apply in_class_later.
Qed.

Lemma well_grouped_members gs :
  well_grouped keyf gs ->
  Forall (fun kg => Forall (fun r => in_class keyf (fst kg) r = true) (snd kg)) gs.
Proof.
  intros [Hm _]. eapply Forall_impl; [|exact Hm]. now intros kg [_ H].
Qed.

Lemma well_grouped_tail kg gs : well_grouped keyf (kg :: gs) -> well_grouped keyf gs.
Proof.
  intros [Hm Hs]. split; [now inversion Hm | now inversion Hs].
Qed.

(** The first group is what the class of its key selects, the other
    groups are the rest. *)
Lemma first_group_filter k g gs :
  well_grouped keyf ((k, g) :: gs) ->
  filter (in_class keyf k) (g ++ List.concat (map snd gs)) = g
  /\ filter (fun r => negb (in_class keyf k r)) (g ++ List.concat (map snd gs))
     = List.concat (map snd gs).
Proof.
  intros Hwg. pose proof (well_grouped_members _ Hwg) as Hm.
  destruct Hwg as [_ Hs]. apply StronglySorted_inv in Hs as [_ Hk].
  inversion Hm as [|? ? Hg Hm']; subst. simpl in Hg, Hk.
  pose proof (later_groups_out k gs Hk Hm') as Hout.
  rewrite !filter_app. split.
  - rewrite (filter_all _ g) by exact Hg.
    rewrite filter_none by exact Hout. apply app_nil_r.
  - rewrite (filter_none _ g).
    + rewrite filter_all; auto.
      eapply Forall_impl; [|exact Hout]. now intros r ->.
    + eapply Forall_impl; [|exact Hg]. now intros r ->.
Qed.

(** The key of the first group is the least one. *)
Lemma first_key_least k1 g1 gs1 k2 g2 gs2 :
  well_grouped keyf ((k1, g1) :: gs1) -> well_grouped keyf ((k2, g2) :: gs2) ->
  Permutation (List.concat (map snd ((k1, g1) :: gs1)))
              (List.concat (map snd ((k2, g2) :: gs2))) ->
  rich_eq k1 k2 = true \/ klt k2 k1.
Proof.
  intros Hwg1 Hwg2 Hp.
  destruct Hwg1 as [Hm1 _]. inversion Hm1 as [|? ? [Hne Hg1] _]; subst.
  simpl in Hne, Hg1. destruct g1 as [|r g1]; [congruence|].
  inversion Hg1 as [|? ? Hr _]; subst.
  assert (Hin : In r (List.concat (map snd ((k2, g2) :: gs2)))).
  { eapply Permutation_in; [exact Hp|]. simpl. now left. }
  apply in_concat in Hin as (g & Hg & Hrg).
  apply in_map_iff in Hg as ([k g'] & <- & Hkg). simpl in Hrg.
  pose proof (well_grouped_members _ Hwg2) as Hm2.
  rewrite Forall_forall in Hm2. pose proof (Hm2 _ Hkg) as Hgk. simpl in Hgk.
  rewrite Forall_forall in Hgk. pose proof (Hgk _ Hrg) as Hrk.
  unfold in_class in Hr, Hrk. destruct (keyf r) as [kr|]; [|discriminate].
  assert (E : rich_eq k1 k = true).
  { rewrite rich_eq_sym in Hr. eapply rich_eq_trans; eauto. }
  destruct Hkg as [[= -> ->] | Hkg]; [now left | right].
  destruct Hwg2 as [_ Hs2]. apply StronglySorted_inv in Hs2 as [_ Hk2].
  rewrite Forall_forall in Hk2. pose proof (Hk2 _ Hkg) as Hlt. simpl in Hlt.
  unfold klt in *. now rewrite (rich_lt_eq_r _ _ _ E).
Qed.

Lemma groups_of_perm gs1 :
  forall gs2,
    well_grouped keyf gs1 -> well_grouped keyf gs2 ->
    Permutation (List.concat (map snd gs1)) (List.concat (map snd gs2)) ->
    Forall2 (fun kg1 kg2 => rich_eq (fst kg1) (fst kg2) = true
                            /\ Permutation (snd kg1) (snd kg2)) gs1 gs2.
Proof.
  induction gs1 as [|[k1 g1] gs1 IH]; intros [|[k2 g2] gs2] Hwg1 Hwg2 Hp.
  - constructor.
  - exfalso. destruct Hwg2 as [Hm _].
    inversion Hm as [|? ? [Hne _] _]; subst. simpl in *.
    apply Permutation_nil in Hp. apply app_eq_nil in Hp as [-> _]. congruence.
  - exfalso. destruct Hwg1 as [Hm _].
    inversion Hm as [|? ? [Hne _] _]; subst. simpl in *.
    symmetry in Hp.
    apply Permutation_nil in Hp. apply app_eq_nil in Hp as [-> _]. congruence.
  - assert (E : rich_eq k1 k2 = true).
    { destruct (first_key_least _ _ _ _ _ _ Hwg1 Hwg2 Hp) as [E | L21]; auto.
      symmetry in Hp.
      destruct (first_key_least _ _ _ _ _ _ Hwg2 Hwg1 Hp) as [E | L12].
      - now rewrite rich_eq_sym.
      - apply rich_lt_asym in L21. unfold klt in L12. congruence. }
    destruct (first_group_filter _ _ _ Hwg1) as [F1 N1].
    destruct (first_group_filter _ _ _ Hwg2) as [F2 N2].
    simpl in Hp. constructor.
    + split; auto. simpl. rewrite <- F1, <- F2.
      rewrite (filter_ext _ _ (fun r => in_class_eq _ _ r E)).
      now apply filter_perm.
    + apply IH; eauto using well_grouped_tail.
      rewrite <- N1, <- N2.
      rewrite (filter_ext (fun r => negb (in_class keyf k1 r))
                          (fun r => negb (in_class keyf k2 r))).
      * now apply filter_perm.
      * intros r. now rewrite (in_class_eq _ _ r E).
Qed.

End GroupFacts.

(** * The claims *)

(** C1.  On the three election rows, an Aggregate stage built from the
    field list [["state"; "year"]] and the single builder
    [total = sum_by_field("votes")] yields exactly two rows, CA's before
    NY's, with the totals 7 and 15. *)
Theorem aggregate_election_scenario :
  exists stage,
    ETLAggStep.__init__ (KeyFields ["state"; "year"])
                        (AddDict [("total", sum_by_field "votes")])
    = Ok stage
    /\ ETLAggStep.run stage (of_list election_rows)
       = of_list
           [ [("state", VStr "CA"); ("year", VInt 2020); ("total", VInt 7)];
             [("state", VStr "NY"); ("year", VInt 2020); ("total", VInt 15)] ].
Proof.
  eexists. split.
  - reflexivity.
  - vm_compute. reflexivity.
Qed.

(** C4.  What the code does where the claim promises a pass-through: a
    Transform stage built without a transform function raises
    [TypeError] at the first row pulled, because [run] calls the
    attribute [step], which holds [None]; the pass-through is written in
    [_step], which [run] does not call. *)
Theorem streaming_without_transform_raises (row : Record) (data : gen Record) :
  ETLStreamingStep.run (ETLStreamingStep.__init__ None) (GCons row data)
  = GRaise TypeError
  /\ ETLStreamingStep._step (ETLStreamingStep.__init__ None) row = Ok row.
Proof. split; reflexivity. Qed.

(** C7.  With a splitter [g] returning a list of rows, the Split stage
    yields the concatenation of [g(input[i])] in input order; the number
    of rows yielded is the sum of the lengths of the [g(r)]; and the
    input rows on which [g] returns the empty list contribute nothing:
    removing them from the input leaves the output unchanged. *)
Theorem split_concatenates (g : Record -> list Record) (data : list Record) :
  let stage := ETLSplitStep.__init__ (Some (fun r => of_list (g r))) in
  ETLSplitStep.run stage (of_list data) = of_list (List.concat (map g data))
  /\ List.length (yielded (ETLSplitStep.run stage (of_list data)))
     = list_sum (map (fun r => List.length (g r)) data)
  /\ ETLSplitStep.run stage (of_list data)
     = ETLSplitStep.run stage
         (of_list (filter (fun r => match g r with
                                    | [] => false
                                    | _ :: _ => true
                                    end) data)).
Proof.
  cbn zeta. unfold ETLSplitStep.run, ETLSplitStep.__init__. simpl.
  rewrite !gen_flat_map_of_list. split; [|split].
  - reflexivity.
  - rewrite yielded_of_list. induction data as [|r data IH]; simpl; auto.
    now rewrite length_app, IH.
  - f_equal. induction data as [|r data IH]; simpl; auto.
    destruct (g r) as [|x l] eqn:G; simpl.
    + exact IH.
    + now rewrite G, IH.
Qed.

(** C9.  For the compound key over [["a"; "b"]] without inverse
    transforms, and a Record whose ["a"] and ["b"] values are strings
    free of the delimiter, the inverse key function applied to the key
    gives back the partial Record of the two fields. *)
Theorem compound_key_round_trip (row : Record) (sa sb : string) :
  get row "a" = Some (VStr sa) ->
  get row "b" = Some (VStr sb) ->
  no_delimiter sa = true ->
  no_delimiter sb = true ->
  let (key_func, inverse_key_func) := compound_key_func_gen ["a"; "b"] [] in
  exists key,
    key_func row = Ok key
    /\ inverse_key_func key = Ok [("a", VStr sa); ("b", VStr sb)].
Proof.
  intros Ha Hb Na Nb. unfold compound_key_func_gen.
  exists (VStr (join delimiter [sa; sb])). split.
  - simpl. unfold subscript. rewrite Ha, Hb. reflexivity.
  - cbn [mapM bind]. rewrite split_join.
    + reflexivity.
    + discriminate.
    + repeat constructor; assumption.
Qed.

Lemma compound_key_round_trip_witness :
  let (key_func, inverse_key_func) := compound_key_func_gen ["a"; "b"] [] in
  exists key,
    key_func [("a", VStr "1"); ("b", VStr "x")] = Ok key
    /\ inverse_key_func key = Ok [("a", VStr "1"); ("b", VStr "x")].
Proof.
  apply (compound_key_round_trip [("a", VStr "1"); ("b", VStr "x")] "1" "x");
    reflexivity.
Defined.

(** C5, as the code has it, for Records whose values are the hashable
    values of the model ([None], booleans, integers, strings).  A field
    without an entry in the specification is normalized to itself, and
    keeps its value in the output of every successful call; a Record none
    of whose fields has an entry is returned as it is; a call fails only
    at a field that has an entry: with the exception whose message is
    Unknown normalizer for, followed by the field name between double
    quotes, when the entry is neither a function nor a mapping, or with
    what the entry's function raises; and normalizing a field whose entry
    is neither a function nor a mapping raises that exception. *)
Theorem value_normalizer_missing_entry_passes
    (value_norms : dict normalizer) (row : Record) :
  wf row ->
  (forall k v, get row k = Some v -> get value_norms k = None ->
               norm_value value_norms k v = Ok v
               /\ forall out, get_value_normalizer value_norms row = Ok out ->
                              get out k = Some v)
  /\ ((forall k, In k (keys row) -> get value_norms k = None) ->
      get_value_normalizer value_norms row = Ok row)
  /\ (forall e, get_value_normalizer value_norms row = Err e ->
                exists k v n,
                  get row k = Some v /\ get value_norms k = Some n
                  /\ ((n = NormOther
                       /\ e = Exception
                               ("Unknown normalizer for "
                                ++ String "034" (k ++ String "034" "")))
                      \/ exists f, n = NormFunc f /\ f v = Err e))
  /\ (forall k v, get value_norms k = Some NormOther ->
                  norm_value value_norms k v
                  = Err (Exception
                           ("Unknown normalizer for "
                            ++ String "034" (k ++ String "034" "")))).
Proof.
  intros Hwf. unfold get_value_normalizer. split; [|split; [|split]].
  - intros k v Hk Hmiss. split; [now apply norm_value_missing|].
    intros out Hout.
    destruct (norm_fold_get _ _ _ _ _ _ Hwf Hout Hk) as (v' & Hn & Hg).
    rewrite (norm_value_missing _ _ _ Hmiss) in Hn. congruence.
  - intros Hmiss. apply (norm_fold_identity value_norms row []); auto.
  - intros e He.
    destruct (norm_fold_error _ _ _ _ He) as (k & v & Hin & Hn).
    destruct (norm_value_error _ _ _ _ Hn) as (n & Hg & Hcase).
    exists k, v, n. split; [now apply in_get_some|]. split; [assumption|].
    destruct Hcase as [[Hn' ->] | Hf]; [left | right; assumption].
    split; [assumption | reflexivity].
  - intros k v Hk. unfold norm_value. rewrite Hk. reflexivity.
Qed.

Lemma value_normalizer_missing_entry_witness :
  norm_value [("b", NormOther)] "a" (VStr "x") = Ok (VStr "x")
  /\ get_value_normalizer [] [("a", VStr "x")] = Ok [("a", VStr "x")]
  /\ norm_value [("b", NormOther)] "b" (VStr "x")
     = Err (Exception
              ("Unknown normalizer for " ++ String "034" ("b" ++ String "034" "")))
  /\ get_value_normalizer [("b", NormOther)] [("a", VStr "x"); ("b", VInt 1)]
     = Err (Exception
              ("Unknown normalizer for " ++ String "034" ("b" ++ String "034" ""))).
Proof.
  split; [|split; [|split]].
  - apply (value_normalizer_missing_entry_passes
             [("b", NormOther)] [("a", VStr "x")]); [solve_wf | reflexivity..].
  - apply (value_normalizer_missing_entry_passes [] [("a", VStr "x")]);
      [solve_wf | intros k _; reflexivity].
  - apply (value_normalizer_missing_entry_passes
             [("b", NormOther)] [("a", VStr "x")]); [solve_wf | reflexivity].
  - reflexivity.
Defined.

(** C5, refuted as stated: with an empty specification, the Record
    [{"a": "x"}] has a field without an entry, and the normalizer returns
    the Record unchanged instead of failing. *)
Lemma value_normalizer_missing_entry_counterexample :
  get (@nil (string * normalizer)) "a" = None
  /\ get_value_normalizer [] [("a", VStr "x")] = Ok [("a", VStr "x")]
  /\ ~ (exists e, get_value_normalizer [] [("a", VStr "x")] = Err e).
Proof.
  split; [reflexivity|]. split; [reflexivity|].
  intros [e He]. discriminate He.
Qed.

Lemma in_keys_get {V : Type} (d : dict V) (k : string) :
  In k (keys d) <-> exists v, get d k = Some v.
Proof.
  destruct (get d k) as [v|] eqn:G.
  - split; [eauto|]. intros _. apply get_some_in in G.
    change k with (fst (k, v)). now apply in_map.
  - split.
    + intros Hin. apply get_none_notin in G. contradiction.
    + intros [v Hv]. discriminate.
Qed.

Lemma first_value_some (group : list Record) (k : string) :
  (exists v, first_value group k = Some v)
  <-> exists r, In r group /\ In k (keys r).
Proof.
  induction group as [|r group IH]; simpl.
  - split; [intros [v Hv]; discriminate | intros (r & [] & _)].
  - destruct (get r k) as [v|] eqn:G.
    + split; [|eauto]. intros _. exists r. split; [now left|].
      apply in_keys_get. eauto.
    + rewrite IH. split.
      * intros (r' & Hin & Hk). eauto.
      * intros (r' & [<- | Hin] & Hk); [|eauto].
        apply in_keys_get in Hk as [v Hv]. congruence.
Qed.

(** C8.  Merging a group whose Records all equal ([==]) the first one
    returns the first one unchanged.  Merging a group in which two
    Records give values that differ ([!=]) to a field fails with the
    exception whose message is: Unable to merge because conflicting
    values for, the field, and between brackets the value met, the sign
    [!=] and the value kept.  The field and the two values are a field
    and two values that two Records of the group give to it and that
    differ, the value kept being the one of the first Record of the
    group that has the field; so that when the Records disagree on one
    field only, it is that field. *)
Theorem merge_fields_identical_or_conflict :
  (forall (r : Record) (rest : list Record),
      wf r -> Forall wf rest -> Forall (fun r' => record_eq r' r) rest ->
      merge_fields (r :: rest) = Ok r)
  /\ (forall (group : list Record) (r1 r2 : Record) (k : string) (v1 v2 : value),
         Forall wf group -> In r1 group -> In r2 group ->
         get r1 k = Some v1 -> get r2 k = Some v2 -> py_eq v1 v2 = false ->
         exists k' v old r r0,
           merge_fields group
           = Err (Exception
                    ("Unable to merge because conflicting values for " ++ k'
                     ++ " (" ++ py_str v ++ " != " ++ py_str old ++ ")"))
           /\ In r group /\ In r0 group
           /\ get r k' = Some v /\ get r0 k' = Some old
           /\ first_value group k' = Some old
           /\ py_eq old v = false
           /\ ((forall ra rb kk va vb,
                   In ra group -> In rb group ->
                   get ra kk = Some va -> get rb kk = Some vb ->
                   py_eq va vb = false -> kk = k) ->
               k' = k)).
Proof.
  split.
  - intros r rest Hr Hrest Heq. rewrite merge_fields_flat. simpl.
    rewrite foldM_app, (merge_fresh r []) by exact Hr. simpl.
    apply merge_absorb. intros k v Hin.
    apply in_concat in Hin as (r' & Hr' & Hkv).
    rewrite Forall_forall in Hrest, Heq.
    apply in_get_some in Hkv; [|now apply Hrest].
    specialize (Heq _ Hr' k). rewrite Hkv in Heq.
    destruct (get r k) as [old|]; [|contradiction].
    exists old. split; auto. now rewrite py_eq_sym.
  - intros group r1 r2 k v1 v2 Hwf H1 H2 G1 G2 Hne.
    rewrite merge_fields_flat.
    destruct (foldM merge_item (List.concat group) []) as [out|e] eqn:M.
    + exfalso. apply merge_flat_ok in M as (_ & Hagree & _). simpl in Hagree.
      assert (I1 : In (k, v1) (List.concat group)).
      { apply in_concat. exists r1. split; auto. now apply get_some_in. }
      assert (I2 : In (k, v2) (List.concat group)).
      { apply in_concat. exists r2. split; auto. now apply get_some_in. }
      destruct (Hagree _ _ I1) as (old & Ho & E1).
      destruct (Hagree _ _ I2) as (old' & Ho' & E2).
      assert (old' = old) by congruence. subst old'.
      rewrite py_eq_sym in E1.
      rewrite (py_eq_trans _ _ _ E1 E2) in Hne. discriminate.
    + apply merge_flat_err in M as (k' & v & old & Hin & Hg & Hne' & ->).
      simpl in Hg. pose proof Hg as Hfirst. rewrite get_concat in Hfirst.
      apply get_some_in in Hg.
      destruct (in_concat_get _ _ _ Hwf Hin) as (r & Hr & Gr).
      destruct (in_concat_get _ _ _ Hwf Hg) as (r0 & Hr0 & Gr0).
      exists k', v, old, r, r0.
      split; [reflexivity|]. repeat split; auto.
      intros Honly. apply (Honly r0 r k' old v); auto.
Qed.

Lemma merge_fields_identical_or_conflict_witness :
  merge_fields [[("a", VInt 1); ("b", VStr "x")];
                [("b", VStr "x"); ("a", VBool true)]]
  = Ok [("a", VInt 1); ("b", VStr "x")]
  /\ (exists k' v old r r0,
        merge_fields [[("a", VInt 1); ("b", VStr "x")];
                      [("a", VInt 1); ("b", VStr "y")]]
        = Err (Exception
                 ("Unable to merge because conflicting values for " ++ k'
                  ++ " (" ++ py_str v ++ " != " ++ py_str old ++ ")"))
        /\ In r [[("a", VInt 1); ("b", VStr "x")];
                 [("a", VInt 1); ("b", VStr "y")]]
        /\ In r0 [[("a", VInt 1); ("b", VStr "x")];
                  [("a", VInt 1); ("b", VStr "y")]]
        /\ get r k' = Some v /\ get r0 k' = Some old /\ py_eq old v = false
        /\ k' = "b")
  /\ merge_fields [[("a", VInt 1); ("b", VStr "x")];
                   [("a", VInt 1); ("b", VStr "y")]]
     = Err (Exception
              "Unable to merge because conflicting values for b (y != x)").
Proof.
  destruct merge_fields_identical_or_conflict as [Hsame Hdiff].
  split; [|split].
  - apply Hsame; [solve_wf | repeat constructor; solve_wf |].
    repeat constructor. intros k. cbn [get].
    destruct (String.eqb "b" k) eqn:Eb, (String.eqb "a" k) eqn:Ea;
      try reflexivity; try exact I.
    apply String.eqb_eq in Eb, Ea. congruence.
  - destruct (Hdiff [[("a", VInt 1); ("b", VStr "x")];
                     [("a", VInt 1); ("b", VStr "y")]]
                    [("a", VInt 1); ("b", VStr "x")]
                    [("a", VInt 1); ("b", VStr "y")]
                    "b" (VStr "x") (VStr "y"))
      as (k' & v & old & r & r0 & H1 & H2 & H3 & H4 & H5 & _ & H6 & H7);
      [repeat constructor; solve_wf | simpl; tauto | simpl; tauto
       | reflexivity | reflexivity | reflexivity |].
    exists k', v, old, r, r0. repeat split; try assumption.
    apply H7. intros ra rb kk va vb Ha Hb. simpl in Ha, Hb.
    destruct Ha as [<- | [<- | []]], Hb as [<- | [<- | []]]; cbn [get];
      destruct (String.eqb "a" kk) eqn:Ea, (String.eqb "b" kk) eqn:Eb;
      try discriminate; intros [= <-] [= <-]; try discriminate;
      intros _; apply String.eqb_eq in Eb; now symmetry.
  - reflexivity.
Defined.

(** C10.  A group of Records with differing field sets, in which no
    field is given two differing values, merges into a Record whose
    fields are the union of the group's fields, each with the value of
    the first Record of the group that has it. *)
Theorem merge_fields_union_first_value (group : list Record) :
  Forall wf group ->
  (forall r1 r2 k v1 v2,
      In r1 group -> In r2 group ->
      get r1 k = Some v1 -> get r2 k = Some v2 -> py_eq v1 v2 = true) ->
  exists out,
    merge_fields group = Ok out
    /\ wf out
    /\ (forall k, In k (keys out) <-> exists r, In r group /\ In k (keys r))
    /\ (forall k, get out k = first_value group k).
Proof.
  intros Hwf Hagree. rewrite merge_fields_flat.
  destruct (foldM merge_item (List.concat group) []) as [out|e] eqn:M.
  - exists out. apply merge_flat_ok in M as (Hget & _ & Hout).
    simpl in Hget.
    assert (Hfirst : forall k, get out k = first_value group k).
    { intros k. now rewrite Hget, get_concat. }
    split; [reflexivity|]. split; [apply Hout; constructor|]. split; auto.
    intros k. rewrite in_keys_get, <- first_value_some.
    split; intros [v Hv]; exists v; now rewrite Hfirst in *.
  - exfalso. apply merge_flat_err in M as (k & v & old & Hin & Hg & Hne & _).
    simpl in Hg. apply get_some_in in Hg.
    destruct (in_concat_get _ _ _ Hwf Hin) as (r & Hr & Gr).
    destruct (in_concat_get _ _ _ Hwf Hg) as (r0 & Hr0 & Gr0).
    rewrite (Hagree r0 r k old v Hr0 Hr Gr0 Gr) in Hne. discriminate.
Qed.

Lemma merge_fields_union_first_value_witness :
  exists out,
    merge_fields [[("a", VInt 1)]; [("b", VInt 2); ("a", VBool true)]] = Ok out
    /\ wf out
    /\ (forall k, In k (keys out)
                  <-> exists r, In r [[("a", VInt 1)];
                                      [("b", VInt 2); ("a", VBool true)]]
                                /\ In k (keys r))
    /\ (forall k, get out k
                  = first_value [[("a", VInt 1)];
                                 [("b", VInt 2); ("a", VBool true)]] k).
Proof.
  apply (merge_fields_union_first_value
           [[("a", VInt 1)]; [("b", VInt 2); ("a", VBool true)]]).
  - repeat constructor; solve_wf.
  - intros r1 r2 k v1 v2 H1 H2. simpl in H1, H2.
    destruct H1 as [<- | [<- | []]], H2 as [<- | [<- | []]]; cbn [get];
      destruct (String.eqb "a" k) eqn:Ea, (String.eqb "b" k) eqn:Eb;
      try discriminate; intros [= <-] [= <-]; try reflexivity;
      apply String.eqb_eq in Ea, Eb; congruence.
Defined.

(** ** The Aggregate stage *)

Lemma builders_fields (group : list Record)
    (d : dict (list Record -> result value)) (fields : Record) :
  mapM (fun kf => v <- snd kf group ;; Ok (fst kf, v)) d = Ok fields ->
  keys fields = keys d
  /\ forall name f, get d name = Some f ->
                    exists v, f group = Ok v /\ get fields name = Some v.
Proof.
  revert fields. induction d as [|[n f0] d IH]; intros fields; simpl.
  - intros [= <-]. split; [reflexivity | discriminate].
  - destruct (f0 group) as [v0|] eqn:F0; simpl; [|discriminate].
    destruct (mapM _ d) as [fs|]; simpl; [|discriminate].
    destruct (IH _ eq_refl) as [Hk Hg]. intros [= <-]. simpl. split.
    + now rewrite Hk.
    + intros name f. destruct (String.eqb n name).
      * intros [= <-]. eauto.
      * apply Hg.
Qed.

Lemma builders_fields_total (group : list Record)
    (d : dict (list Record -> result value)) :
  Forall (fun kf => forall group, exists v, snd kf group = Ok v) d ->
  exists fields, mapM (fun kf => v <- snd kf group ;; Ok (fst kf, v)) d = Ok fields.
Proof.
  induction 1 as [|[n f] d Hf _ [fs IH]]; simpl; eauto.
  destruct (Hf group) as [v Hv]. simpl in Hv. rewrite Hv, IH. simpl. eauto.
Qed.

Lemma agg_row_total (self : ETLAggStep.t) (fields : list string)
    (items : list value) (group : list Record) :
  builders_total (ETLAggStep._add_fields self) ->
  exists row, ETLAggStep.agg_row self (KNamed fields items, group) = Ok row.
Proof.
  unfold ETLAggStep.agg_row, builders_total. simpl.
  destruct (ETLAggStep._add_fields self) as [f|d|]; intros Htot.
  - destruct (Htot group) as [fs ->]. simpl. eauto.
  - destruct (builders_fields_total group d Htot) as [fs ->]. simpl. eauto.
  - eauto.
Qed.

Lemma Forall_exists_Forall2 {A B : Type} (R : A -> B -> Prop) (l : list A) :
  Forall (fun a => exists b, R a b) l -> exists l', Forall2 R l l'.
Proof.
  induction 1 as [|a l [b Hb] _ [l' IH]]; eauto.
Qed.

Lemma sorted_pairs {A : Type} (R : A -> A -> Prop) (l : list A) :
  StronglySorted R l -> ForallOrdPairs R l.
Proof. induction 1; constructor; auto. Qed.

(** The groups the stage iterates over, when the sort succeeds. *)
Lemma groups_spec (self : ETLAggStep.t) (data d : list Record) :
  sorted (ETLAggStep._key_func self) data = Ok d ->
  exists gs,
    ETLAggStep.groups self (of_list data) = Ok (of_list gs)
    /\ Permutation (List.concat (map snd gs)) data
    /\ well_grouped (ETLAggStep._key_func self) gs.
Proof.
  intros S. unfold ETLAggStep.groups. rewrite to_list_of_list. simpl.
  rewrite S. simpl.
  destruct (sorted_spec _ _ _ S) as (Hp & Hs & Hk).
  destruct (groupby_spec _ _ Hs Hk) as (gs & -> & Hc & Hwg).
  exists gs. repeat split; try apply Hwg. now rewrite Hc.
Qed.

Lemma groups_error (self : ETLAggStep.t) (data : list Record) (e : exn) :
  sorted (ETLAggStep._key_func self) data = Err e ->
  ETLAggStep.groups self (of_list data) = Err e.
Proof.
  intros S. unfold ETLAggStep.groups. rewrite to_list_of_list. simpl.
  now rewrite S.
Qed.

(** C2.  Permuting the input of an Aggregate stage leaves its groups
    unchanged: either both runs fail before any group is formed, or both
    form groups, with [==] keys and, under each key, the same Records up
    to their order (the groups even come in the same order). *)
Theorem aggregate_groups_permutation_invariant
    (self : ETLAggStep.t) (data1 data2 : list Record) :
  Permutation data1 data2 ->
  match ETLAggStep.groups self (of_list data1),
        ETLAggStep.groups self (of_list data2) with
  | Ok g1, Ok g2 =>
      exists gs1 gs2,
        g1 = of_list gs1 /\ g2 = of_list gs2 /\ same_groups gs1 gs2
  | Err _, Err _ => True
  | _, _ => False
  end.
Proof.
  intros Hp.
  destruct (sorted (ETLAggStep._key_func self) data1) as [d1|e1] eqn:S1;
    destruct (sorted (ETLAggStep._key_func self) data2) as [d2|e2] eqn:S2.
  - destruct (groups_spec _ _ _ S1) as (gs1 & -> & Hc1 & Hwg1).
    destruct (groups_spec _ _ _ S2) as (gs2 & -> & Hc2 & Hwg2).
    exists gs1, gs2. repeat split.
    assert (Hc : Permutation (List.concat (map snd gs1))
                             (List.concat (map snd gs2)))
      by (rewrite Hc1, Hc2; exact Hp).
    exact (groups_of_perm (ETLAggStep._key_func self) gs1 gs2 Hwg1 Hwg2 Hc).
  - destruct (sorted_perm_total _ _ _ _ Hp S1) as [d2 S2']. congruence.
  - symmetry in Hp.
    destruct (sorted_perm_total _ _ _ _ Hp S2) as [d1 S1']. congruence.
  - now rewrite (groups_error _ _ _ S1), (groups_error _ _ _ S2).
Qed.

Lemma aggregate_groups_permutation_invariant_witness :
  exists stage,
    ETLAggStep.__init__ (KeyFields ["state"; "year"]) AddOther = Ok stage
    /\ match ETLAggStep.groups stage (of_list election_rows),
             ETLAggStep.groups stage (of_list (rev election_rows)) with
       | Ok g1, Ok g2 =>
           exists gs1 gs2,
             g1 = of_list gs1 /\ g2 = of_list gs2 /\ same_groups gs1 gs2
       | Err _, Err _ => True
       | _, _ => False
       end.
Proof.
  eexists. split; [reflexivity|].
  apply aggregate_groups_permutation_invariant. apply Permutation_rev.
Defined.

(** C3.  In a stage configured with a dict of field builders, when a
    builder's name is also a field of the key expansion of a group, the
    row emitted for the group carries under that name the builder's
    result on the group, not the key's value. *)
Theorem aggregate_builder_overrides_key_field
    (self : ETLAggStep.t) (d : dict (list Record -> result value))
    (data : gen Record) (gs : gen (key * list Record)) (i : nat)
    (k : key) (group : list Record) (row key_fields : Record)
    (name : string) (f : list Record -> result value) (key_value : value) :
  ETLAggStep._add_fields self = AddDict d ->
  wf d ->
  ETLAggStep.groups self data = Ok gs ->
  nth_error (yielded gs) i = Some (k, group) ->
  nth_error (yielded (ETLAggStep.run self data)) i = Some row ->
  _asdict k = Ok key_fields ->
  get key_fields name = Some key_value ->
  get d name = Some f ->
  exists v, f group = Ok v /\ get row name = Some v.
Proof.
  intros Hadd Hwf Hgs Hi Hrow Hkd _ Hf.
  unfold ETLAggStep.run in Hrow. rewrite Hgs in Hrow.
  apply gen_map_nth in Hrow as (kg & Hkg & Hagg).
  rewrite Hi in Hkg. injection Hkg as <-.
  unfold ETLAggStep.agg_row in Hagg. rewrite Hkd, Hadd in Hagg. simpl in Hagg.
  destruct (mapM _ d) as [fields|] eqn:M; simpl in Hagg; [|discriminate].
  injection Hagg as <-.
  destruct (builders_fields _ _ _ M) as [Hk Hg].
  destruct (Hg _ _ Hf) as (v & Hv & Hfv).
  exists v. split; auto.
  rewrite get_update, Hfv; auto. unfold wf. now rewrite Hk.
Qed.

Lemma aggregate_builder_overrides_key_field_witness :
  exists v,
    sum_by_field "votes" [[("state", VStr "NY"); ("votes", VInt 3)]] = Ok v
    /\ get [("state", VInt 3)] "state" = Some v.
Proof.
  apply (aggregate_builder_overrides_key_field
           {| ETLAggStep._key_func :=
                fun row => v <- subscript row "state" ;;
                           Ok (KNamed ["state"] [v]);
              ETLAggStep._add_fields :=
                AddDict [("state", sum_by_field "votes")] |}
           [("state", sum_by_field "votes")]
           (of_list [[("state", VStr "NY"); ("votes", VInt 3)]])
           (of_list [(KNamed ["state"] [VStr "NY"],
                      [[("state", VStr "NY"); ("votes", VInt 3)]])])
           0
           (KNamed ["state"] [VStr "NY"])
           [[("state", VStr "NY"); ("votes", VInt 3)]]
           [("state", VInt 3)]
           [("state", VStr "NY")]
           "state" (sum_by_field "votes") (VStr "NY"));
    try reflexivity.
  solve_wf.
Defined.

(** With keys that are namedtuple instances, every group has a row. *)
Lemma named_keys_rows (self : ETLAggStep.t) (data : list Record) :
  (forall r, In r data ->
             exists fields items,
               ETLAggStep._key_func self r = Ok (KNamed fields items)) ->
  (forall r1 r2 k1 k2,
      In r1 data -> In r2 data ->
      ETLAggStep._key_func self r1 = Ok k1 ->
      ETLAggStep._key_func self r2 = Ok k2 ->
      exists t, key_lt k1 k2 = Ok t) ->
  builders_total (ETLAggStep._add_fields self) ->
  exists gs rows,
    ETLAggStep.groups self (of_list data) = Ok (of_list gs)
    /\ is_grouping (ETLAggStep._key_func self) data gs
    /\ ETLAggStep.run self (of_list data) = of_list rows
    /\ Forall2 (fun kg row => ETLAggStep.agg_row self kg = Ok row) gs rows.
Proof.
  intros Hnamed Hcmp Htot.
  destruct (sorted_total (ETLAggStep._key_func self) data) as [d S].
  { rewrite Forall_forall. intros r Hr.
    destruct (Hnamed r Hr) as (fs & items & Hk). now exists (KNamed fs items). }
  { exact Hcmp. }
  destruct (groups_spec _ _ _ S) as (gs & Hgs & Hc & Hwg).
  assert (Hmem : Forall (fun kg =>
                           snd kg <> []
                           /\ Forall (fun r => exists k,
                                          ETLAggStep._key_func self r = Ok k
                                          /\ key_eq k (fst kg) = true)
                                     (snd kg)) gs).
  { destruct Hwg as [Hm _]. eapply Forall_impl; [|exact Hm].
    intros kg [Hne Hin]. split; auto.
    eapply Forall_impl; [|exact Hin]. intros r. unfold in_class.
    destruct (ETLAggStep._key_func self r) as [kr|]; [eauto | discriminate]. }
  assert (Hrows : Forall (fun kg => exists row,
                              ETLAggStep.agg_row self kg = Ok row) gs).
  { rewrite Forall_forall in *. intros [k g] Hkg.
    destruct (Hmem _ Hkg) as [Hne Hin]. simpl in Hne, Hin.
    destruct g as [|r g]; [congruence|].
    inversion Hin as [|? ? (kr & Kr & E) _]; subst.
    assert (Hr : In r data).
    { eapply Permutation_in; [exact Hc|]. apply in_concat.
      exists (r :: g). split; [|now left].
      change (r :: g) with (snd (k, r :: g)). now apply in_map. }
    destruct (Hnamed r Hr) as (fs & items & Kr').
    rewrite Kr in Kr'. injection Kr' as ->.
    destruct k as [fs' items'|v]; [|discriminate].
    now apply agg_row_total. }
  destruct (Forall_exists_Forall2 _ _ Hrows) as [rows Hrows'].
  exists gs, rows. split; [exact Hgs|]. split; [|split; [|exact Hrows']].
  - split; [exact Hc|]. split; [exact Hmem|].
    destruct Hwg as [_ Hs]. apply sorted_pairs in Hs.
    revert Hs. clear. induction 1 as [|kg gs Hkg _ IH]; constructor; auto.
    eapply Forall_impl; [|exact Hkg]. intros kg' Hlt.
    exact (rich_lt_not_eq (fst kg) (fst kg') Hlt).
  - unfold ETLAggStep.run. rewrite Hgs.
    now apply gen_map_of_list_total.
Qed.

(** With keys that are not namedtuple instances, the first group has
    none. *)
Lemma plain_keys_raise (self : ETLAggStep.t) (data : list Record) :
  (forall r, In r data ->
             exists v, ETLAggStep._key_func self r = Ok (KPlain v)) ->
  (forall r1 r2 k1 k2,
      In r1 data -> In r2 data ->
      ETLAggStep._key_func self r1 = Ok k1 ->
      ETLAggStep._key_func self r2 = Ok k2 ->
      exists t, key_lt k1 k2 = Ok t) ->
  data <> [] ->
  ETLAggStep.run self (of_list data) = GRaise (AttributeError "_asdict").
Proof.
  intros Hplain Hcmp Hne.
  destruct (sorted_total (ETLAggStep._key_func self) data) as [d S].
  { rewrite Forall_forall. intros r Hr.
    destruct (Hplain r Hr) as (v & Hk). now exists (KPlain v). }
  { exact Hcmp. }
  destruct (groups_spec _ _ _ S) as (gs & Hgs & Hc & Hwg).
  unfold ETLAggStep.run. rewrite Hgs.
  destruct gs as [|[k g] gs].
  - simpl in Hc. apply Permutation_nil in Hc. congruence.
  - pose proof (well_grouped_members _ _ Hwg) as Hm.
    destruct Hwg as [Hnon _].
    inversion Hnon as [|? ? [Hg _] _]; subst. simpl in Hg.
    inversion Hm as [|? ? Hin _]; subst. simpl in Hin.
    destruct g as [|r g]; [congruence|].
    inversion Hin as [|? ? Hr _]; subst.
    assert (Hrd : In r data).
    { eapply Permutation_in; [exact Hc|]. simpl. now left. }
    destruct (Hplain r Hrd) as (v & Kr).
    unfold in_class in Hr. rewrite Kr in Hr.
    destruct k as [fs items|w]; [discriminate|].
    reflexivity.
Qed.

(** C6, as the code has it.  For a caller-supplied key function whose
    keys [<] orders on the input: when the keys are namedtuple instances
    and the field builders do not raise, the stage yields one row per
    group of Records with [==] keys (the groups split the input, and the
    rows are the groups' rows, one for one); when the keys are opaque
    values that are not namedtuple instances (strings, numbers) and the
    input is not empty, the stage raises [AttributeError] for [_asdict]
    at its first pull and yields no row. *)
Theorem aggregate_caller_key_function
    (self : ETLAggStep.t) (data : list Record) :
  (forall r1 r2 k1 k2,
      In r1 data -> In r2 data ->
      ETLAggStep._key_func self r1 = Ok k1 ->
      ETLAggStep._key_func self r2 = Ok k2 ->
      exists t, key_lt k1 k2 = Ok t) ->
  ((forall r, In r data ->
              exists fields items,
                ETLAggStep._key_func self r = Ok (KNamed fields items)) ->
   builders_total (ETLAggStep._add_fields self) ->
   exists gs rows,
     ETLAggStep.groups self (of_list data) = Ok (of_list gs)
     /\ is_grouping (ETLAggStep._key_func self) data gs
     /\ ETLAggStep.run self (of_list data) = of_list rows
     /\ Forall2 (fun kg row => ETLAggStep.agg_row self kg = Ok row) gs rows)
  /\ ((forall r, In r data ->
                 exists v, ETLAggStep._key_func self r = Ok (KPlain v)) ->
      data <> [] ->
      ETLAggStep.run self (of_list data) = GRaise (AttributeError "_asdict")
      /\ yielded (ETLAggStep.run self (of_list data)) = []).
Proof.
  intros Hcmp. split.
  - intros Hnamed Htot. now apply named_keys_rows.
  - intros Hplain Hne.
    rewrite (plain_keys_raise self data Hplain Hcmp Hne). split; reflexivity.
Qed.

Lemma aggregate_caller_key_function_witness :
  (exists stage,
      ETLAggStep.__init__
        (KeyFunc (fun row => s <- subscript row "state" ;;
                             y <- subscript row "year" ;;
                             Ok (KNamed ["state"; "year"] [s; y])))
        (AddDict [("rows", fun group => Ok (VInt (Z.of_nat (List.length group))))])
      = Ok stage
      /\ exists gs rows,
          ETLAggStep.groups stage (of_list election_rows) = Ok (of_list gs)
          /\ is_grouping (ETLAggStep._key_func stage) election_rows gs
          /\ ETLAggStep.run stage (of_list election_rows) = of_list rows
          /\ Forall2 (fun kg row => ETLAggStep.agg_row stage kg = Ok row) gs rows)
  /\ (exists stage,
         ETLAggStep.__init__
           (KeyFunc (fun row => v <- subscript row "state" ;; Ok (KPlain v)))
           (AddDict [])
         = Ok stage
         /\ ETLAggStep.run stage
              (of_list [[("state", VStr "NY")]; [("state", VStr "CA")]])
            = GRaise (AttributeError "_asdict")
         /\ yielded (ETLAggStep.run stage
                       (of_list [[("state", VStr "NY")]; [("state", VStr "CA")]]))
            = []).
Proof.
  split.
  - eexists. split; [reflexivity|].
    apply aggregate_caller_key_function.
    + intros r1 r2 k1 k2 H1 H2. simpl in H1, H2.
      destruct H1 as [<- | [<- | [<- | []]]], H2 as [<- | [<- | [<- | []]]];
        intros [= <-] [= <-]; eexists; reflexivity.
    + intros r Hr. simpl in Hr.
      destruct Hr as [<- | [<- | [<- | []]]]; eexists _, _; reflexivity.
    + repeat constructor. intros group. eexists. reflexivity.
  - eexists. split; [reflexivity|].
    apply aggregate_caller_key_function.
    + intros r1 r2 k1 k2 H1 H2. simpl in H1, H2.
      destruct H1 as [<- | [<- | []]], H2 as [<- | [<- | []]];
        intros [= <-] [= <-]; eexists; reflexivity.
    + intros r Hr. simpl in Hr.
      destruct Hr as [<- | [<- | []]]; eexists; reflexivity.
    + discriminate.
Defined.

(** C6, refuted as stated: the key function of the compound-key helper
    returns strings, which [<] and [==] order and compare, and the
    two-row input is sorted by them; the stage then raises
    [AttributeError] on the first group instead of yielding a row,
    because a string has no [_asdict]. *)
Lemma aggregate_opaque_key_counterexample :
  let key_func := fun row =>
                    v <- fst (compound_key_func_gen ["state"] []) row ;;
                    Ok (KPlain v) in
  let rows := [[("state", VStr "NY")]; [("state", VStr "CA")]] in
  exists stage,
    ETLAggStep.__init__ (KeyFunc key_func) (AddDict []) = Ok stage
    /\ sorted key_func rows
       = Ok [[("state", VStr "CA")]; [("state", VStr "NY")]]
    /\ ETLAggStep.run stage (of_list rows) = GRaise (AttributeError "_asdict")
    /\ yielded (ETLAggStep.run stage (of_list rows)) = [].
Proof.
  eexists. split; [reflexivity|]. repeat split; vm_compute; reflexivity.
Qed.


(** * More of the code *)

(** ** Transform, Filter, Split and the pipeline *)

Lemma gen_map_app {A B : Type} (f : A -> result B) (pre : list A) (pre' : list B)
    (rest : gen A) :
  Forall2 (fun a b => f a = Ok b) pre pre' ->
  gen_map f (gen_app (of_list pre) rest) = gen_app (of_list pre') (gen_map f rest).
Proof.
  induction 1 as [|a b pre pre' Hab _ IH]; simpl; auto.
  now rewrite Hab, IH.
Qed.

Lemma of_list_app {A : Type} (l1 l2 : list A) :
  of_list (l1 ++ l2) = gen_app (of_list l1) (of_list l2).
Proof. symmetry. apply gen_app_of_list. Qed.



Lemma to_list_app_raise {A : Type} (l : list A) (e : exn) :
  to_list (gen_app (of_list l) (GRaise e)) = Err e.
Proof. induction l as [|a l IH]; simpl; auto. now rewrite IH. Qed.

(** X1.  A Transform stage with a function [f] yields [f(row)] for each
    row, in order; at the first row on which [f] raises, the rows before
    it have been yielded and the exception ends the sequence. *)
Theorem streaming_maps_until_failure
    (f : Record -> result Record) (pre pre' : list Record) :
  Forall2 (fun a b => f a = Ok b) pre pre' ->
  let stage := ETLStreamingStep.__init__ (Some f) in
  ETLStreamingStep.run stage (of_list pre) = of_list pre'
  /\ forall r post e,
      f r = Err e ->
      ETLStreamingStep.run stage (of_list (pre ++ r :: post))
      = gen_app (of_list pre') (GRaise e).
Proof.
  intros H. cbn zeta. unfold ETLStreamingStep.run. simpl. split.
  - now apply gen_map_of_list_total.
  - intros r post e He. rewrite of_list_app, (gen_map_app _ _ _ _ H).
    simpl. now rewrite He.
Qed.

Lemma streaming_maps_until_failure_witness :
  let f := fun row : Record =>
             v <- subscript row "n" ;; w <- py_add v (VInt 1) ;;
             Ok (set row "n" w) in
  let stage := ETLStreamingStep.__init__ (Some f) in
  ETLStreamingStep.run stage (of_list [[("n", VInt 1)]; [("n", VInt 5)]])
  = of_list [[("n", VInt 2)]; [("n", VInt 6)]]
  /\ forall r post e,
      f r = Err e ->
      ETLStreamingStep.run stage
        (of_list ([[("n", VInt 1)]; [("n", VInt 5)]] ++ r :: post))
      = gen_app (of_list [[("n", VInt 2)]; [("n", VInt 6)]]) (GRaise e).
Proof.
  apply (streaming_maps_until_failure
           (fun row : Record =>
              v <- subscript row "n" ;; w <- py_add v (VInt 1) ;;
              Ok (set row "n" w))).
  repeat constructor.
Defined.



(** X3.  A Split stage built without a splitter is the identity on any
    input sequence, failing ones included: each row is wrapped in a
    one-element list and yielded. *)
Theorem split_default_is_identity (data : gen Record) :
  ETLSplitStep.run (ETLSplitStep.__init__ None) data = data.
Proof.
  unfold ETLSplitStep.run. simpl.
  induction data as [|row data IH|e]; simpl; congruence.
Qed.

(** X4.  No stage recovers from a source that raises at its first pull:
    whatever the stages, the pipeline raises the same exception and
    yields nothing. *)
Theorem pipeline_propagates_source_error
    (e : exn) (steps : list ETLPipeline.stage) :
  ETLPipeline.run {| ETLPipeline._source := GRaise e;
                     ETLPipeline._steps := steps |}
  = GRaise e.
Proof.
  unfold ETLPipeline.run. simpl.
  induction steps as [|[s|s|s|s] steps IH]; simpl; auto.
Qed.

(** X5.  An Aggregate stage placed after a Transform stage hides the
    rows the Transform stage produced before failing: when the transform
    raises on some row, however late, the pipeline raises that exception
    at the first pull and yields no aggregated row. *)
Theorem pipeline_aggregate_after_failing_transform
    (f : Record -> result Record) (agg : ETLAggStep.t)
    (pre pre' : list Record) (r : Record) (post : list Record) (e : exn) :
  Forall2 (fun a b => f a = Ok b) pre pre' ->
  f r = Err e ->
  ETLPipeline.run
    {| ETLPipeline._source := of_list (pre ++ r :: post);
       ETLPipeline._steps :=
         [ETLPipeline.Streaming (ETLStreamingStep.__init__ (Some f));
          ETLPipeline.Agg agg] |}
  = GRaise e.
Proof.
  intros H He. unfold ETLPipeline.run. simpl.
  unfold ETLStreamingStep.run. simpl.
  rewrite of_list_app, (gen_map_app _ _ _ _ H). simpl. rewrite He.
  unfold ETLAggStep.run, ETLAggStep.groups.
  now rewrite to_list_app_raise.
Qed.

Lemma pipeline_aggregate_after_failing_transform_witness :
  ETLPipeline.run
    {| ETLPipeline._source :=
         of_list ([[("k", VInt 1)]] ++ [("j", VInt 2)] :: []);
       ETLPipeline._steps :=
         [ETLPipeline.Streaming
            (ETLStreamingStep.__init__
               (Some (fun row => v <- subscript row "k" ;; Ok [("k", v)])));
          ETLPipeline.Agg
            {| ETLAggStep._key_func :=
                 fun row => v <- subscript row "k" ;; Ok (KNamed ["k"] [v]);
               ETLAggStep._add_fields := AddOther |}] |}
  = GRaise (KeyError "k").
Proof.
  apply (pipeline_aggregate_after_failing_transform
           (fun row => v <- subscript row "k" ;; Ok [("k", v)])
           _ [[("k", VInt 1)]] [[("k", VInt 1)]]).
  - repeat constructor.
  - reflexivity.
Defined.

(** ** More on the Aggregate stage *)

Lemma decorate_error {A K : Type} (keyf : A -> result K) (l : list A)
    (r : A) (e : exn) :
  In r l -> keyf r = Err e ->
  exists r' e', In r' l /\ keyf r' = Err e' /\ decorate keyf l = Err e'.
Proof.
  unfold decorate. induction l as [|a l IH]; simpl; [tauto|].
  intros Hin He. destruct (keyf a) as [k|ea] eqn:Ka; simpl.
  - destruct Hin as [-> | Hin]; [congruence|].
    destruct (IH Hin He) as (r' & e' & Hr' & He' & ->). simpl. eauto 6.
  - exists a, ea. auto.
Qed.

Lemma groupby_from_keys {A K : Type} {ord : PyOrd K} (keyf : A -> result K)
    (P : K -> Prop) (l : list A) :
  (forall r k, keyf r = Ok k -> P k) ->
  forall tgt acc,
    P tgt -> Forall (fun kg => P (fst kg)) (yielded (groupby_from keyf tgt acc l)).
Proof.
  intros HP. induction l as [|x l IH]; intros tgt acc Ht; simpl.
  - repeat constructor. exact Ht.
  - destruct (keyf x) as [k|] eqn:Kx; simpl; [|constructor].
    destruct (rich_eq k tgt); simpl; auto.
    constructor; eauto.
Qed.

Lemma groupby_keys {A K : Type} {ord : PyOrd K} (keyf : A -> result K)
    (P : K -> Prop) (l : list A) :
  (forall r k, keyf r = Ok k -> P k) ->
  Forall (fun kg => P (fst kg)) (yielded (groupby keyf l)).
Proof.
  intros HP. destruct l as [|x l]; simpl; [constructor|].
  destruct (keyf x) as [k|] eqn:Kx; simpl; [|constructor].
  apply groupby_from_keys; eauto.
Qed.

Lemma gen_map_yielded {A B : Type} (f : A -> result B) (P : A -> Prop)
    (Q : B -> Prop) (g : gen A) :
  (forall a b, P a -> f a = Ok b -> Q b) ->
  Forall P (yielded g) -> Forall Q (yielded (gen_map f g)).
Proof.
  intros HPQ. induction g as [|a g IH|e]; simpl; intros H; try constructor.
  inversion H as [|? ? Ha Hg]; subst.
  destruct (f a) as [b|] eqn:Fa; simpl; constructor; eauto.
Qed.

Lemma mapM_length {A B : Type} (f : A -> result B) (l : list A) (l' : list B) :
  mapM f l = Ok l' -> List.length l' = List.length l.
Proof.
  revert l'. induction l as [|a l IH]; intros l'; simpl.
  - now intros [= <-].
  - destruct (f a); simpl; [|discriminate].
    destruct (mapM f l) as [bs|]; simpl; [|discriminate].
    intros [= <-]. simpl. now rewrite (IH bs).
Qed.

Lemma keys_combine {V : Type} (fields : list string) (items : list V) :
  List.length items = List.length fields ->
  keys (combine fields items) = fields.
Proof.
  revert items. induction fields as [|f fields IH]; intros [|v items]; simpl;
    try discriminate; auto.
  intros [= H]. now rewrite IH.
Qed.

Lemma has_duplicate_nodup (l : list string) :
  has_duplicate l = false -> NoDup l.
Proof.
  induction l as [|x l IH]; simpl; [constructor|].
  intros H. apply orb_false_iff in H as [Hx Hl]. constructor; auto.
  intros Hin. assert (E : existsb (String.eqb x) l = true).
  { apply existsb_exists. exists x. split; auto. apply String.eqb_refl. }
  congruence.
Qed.

Lemma existsb_eqb_in (k : string) (l : list string) :
  existsb (String.eqb k) l = true <-> In k l.
Proof.
  rewrite existsb_exists. split.
  - intros (x & Hx & E). apply String.eqb_eq in E. now subst.
  - intros H. exists k. split; auto. apply String.eqb_refl.
Qed.

(** The fields of [d.update(d2)]: those of [d], then the new ones of
    [d2], in order. *)
Lemma keys_update {V : Type} (d d2 : dict V) :
  wf d2 ->
  keys (update d d2)
  = keys d ++ filter (fun k => negb (existsb (String.eqb k) (keys d))) (keys d2).
Proof.
  unfold update, wf. revert d.
  induction d2 as [|[k v] d2 IH]; intros d Hnd; simpl.
  - now rewrite app_nil_r.
  - inversion Hnd as [|? ? Hnotin Hnd']; subst. rewrite IH by assumption.
    destruct (existsb (String.eqb k) (keys d)) eqn:E; simpl.
    + apply existsb_eqb_in in E. now rewrite keys_set_present.
    + assert (G : get d k = None).
      { apply get_none_notin. intros Hin. apply existsb_eqb_in in Hin. congruence. }
      rewrite (set_absent _ _ _ G). unfold keys at 1 2. rewrite map_app. simpl.
      rewrite <- app_assoc. simpl. do 2 f_equal.
      apply filter_ext_in. intros k' Hk'. f_equal.
      rewrite existsb_app. simpl.
      destruct (String.eqb k' k) eqn:E'; [|now rewrite orb_false_r].
      apply String.eqb_eq in E'. subst k'. contradiction.
Qed.

(** What the constructor makes of a list of field names. *)
Lemma init_key_fields (fields : list string) (af : field_builders)
    (stage : ETLAggStep.t) :
  ETLAggStep.__init__ (KeyFields fields) af = Ok stage ->
  NoDup fields
  /\ ETLAggStep._add_fields stage = af
  /\ forall row,
      ETLAggStep._key_func stage row
      = (items <- mapM (fun field => subscript row field) fields ;;
         Ok (KNamed fields items)).
Proof.
  unfold ETLAggStep.__init__, ETLAggStep._get_grouping_key, namedtuple.
  destruct (forallb _ fields && forallb _ fields && negb (has_duplicate fields))
    eqn:E; simpl; [|discriminate].
  intros [= <-]. simpl. repeat split.
  apply has_duplicate_nodup.
  apply andb_true_iff in E as [_ E]. now apply negb_true_iff in E.
Qed.

(** The stage the constructor builds from a list of field names has
    [get_key] as key function, and the names are distinct. *)
Lemma init_uses_get_key (fields : list string) (af : field_builders)
    (stage : ETLAggStep.t) :
  ETLAggStep.__init__ (KeyFields fields) af = Ok stage ->
  NoDup fields
  /\ ETLAggStep._add_fields stage = af
  /\ forall row, ETLAggStep._key_func stage row = get_key fields row.
Proof. apply init_key_fields. Qed.



Lemma gen_map_yielded_length {A B : Type} (f : A -> result B) (g : gen A) :
  List.length (yielded (gen_map f g)) <= List.length (yielded g).
Proof.
  induction g as [|a g IH|e]; simpl; auto.
  destruct (f a); simpl; lia.
Qed.

Lemma groups_count {A B : Type} (gs : list (B * list A)) :
  Forall (fun kg => snd kg <> []) gs ->
  List.length gs <= List.length (List.concat (map snd gs)).
Proof.
  induction 1 as [|[k g] gs Hne _ IH]; simpl; auto.
  rewrite length_app. destruct g; simpl in *; [congruence | lia].
Qed.

(** X6.  An Aggregate stage yields nothing on an empty input, and never
    yields more rows than it was given Records, whatever its
    configuration. *)
Theorem aggregate_yields_at_most_input (self : ETLAggStep.t) :
  ETLAggStep.run self GNil = GNil
  /\ forall data : list Record,
      List.length (yielded (ETLAggStep.run self (of_list data)))
      <= List.length data.
Proof.
  split; [reflexivity|]. intros data. unfold ETLAggStep.run.
  destruct (sorted (ETLAggStep._key_func self) data) as [d|e] eqn:S.
  - destruct (groups_spec _ _ _ S) as (gs & -> & Hc & Hm & _).
    etransitivity; [apply gen_map_yielded_length|].
    rewrite yielded_of_list, <- (Permutation_length Hc).
    apply groups_count. eapply Forall_impl; [|exact Hm]. now intros kg [H _].
  - rewrite (groups_error _ _ _ S). simpl. lia.
Qed.

(** X7.  When the key function raises on some Record of the input,
    wherever it stands, the Aggregate stage yields no row at all: its
    first pull raises what the key function raises on a Record of the
    input. *)
Theorem aggregate_key_error_before_output
    (self : ETLAggStep.t) (data : list Record) (r : Record) (e : exn) :
  In r data ->
  ETLAggStep._key_func self r = Err e ->
  exists r' e',
    In r' data /\ ETLAggStep._key_func self r' = Err e'
    /\ ETLAggStep.run self (of_list data) = GRaise e'.
Proof.
  intros Hin He.
  destruct (decorate_error _ _ _ _ Hin He) as (r' & e' & Hr' & He' & D).
  exists r', e'. repeat split; auto.
  unfold ETLAggStep.run, ETLAggStep.groups. rewrite to_list_of_list. simpl.
  unfold sorted. now rewrite D.
Qed.

Lemma aggregate_key_error_before_output_witness :
  let stage :=
    {| ETLAggStep._key_func :=
         fun row => v <- subscript row "k" ;; Ok (KPlain v);
       ETLAggStep._add_fields := AddOther |} in
  exists r' e',
    In r' [[("k", VInt 1)]; [("j", VInt 2)]]
    /\ ETLAggStep._key_func stage r' = Err e'
    /\ ETLAggStep.run stage (of_list [[("k", VInt 1)]; [("j", VInt 2)]])
       = GRaise e'.
Proof.
  apply (aggregate_key_error_before_output
           {| ETLAggStep._key_func :=
                fun row => v <- subscript row "k" ;; Ok (KPlain v);
              ETLAggStep._add_fields := AddOther |}
           [[("k", VInt 1)]; [("j", VInt 2)]]
           [("j", VInt 2)] (KeyError "k")).
  - simpl. tauto.
  - reflexivity.
Defined.

Section Stability.
Context {A K : Type} {ord : PyOrd K} {laws : PyOrdLaws K}.
Variable keyf : A -> result K.

(** Inserting an item moves it past strictly smaller items only, so the
    items of one class keep their order. *)
Lemma insert_filter (k : K) (x : K * A) (s r : list (K * A)) :
  insert x s = Ok r ->
  filter (fun p => rich_eq (fst p) k) r
  = filter (fun p => rich_eq (fst p) k) (x :: s).
Proof.
  revert r. induction s as [|y s IH]; intros r; simpl.
  - now intros [= <-].
  - destruct (rich_lt (fst y) (fst x)) as [[]|] eqn:L; simpl; try discriminate.
    + destruct (insert x s) as [r'|] eqn:I; simpl; [|discriminate].
      intros [= <-]. simpl. rewrite (IH _ eq_refl). simpl.
      destruct (rich_eq (fst x) k) eqn:Ex; auto.
      destruct (rich_eq (fst y) k) eqn:Ey; auto. exfalso.
      apply rich_lt_not_eq in L. rewrite rich_eq_sym in Ex.
      rewrite (rich_eq_trans _ _ _ Ey Ex) in L. discriminate.
    + now intros [= <-].
Qed.

Lemma isort_filter (k : K) (l s : list (K * A)) :
  isort l = Ok s ->
  filter (fun p => rich_eq (fst p) k) s = filter (fun p => rich_eq (fst p) k) l.
Proof.
  revert s. induction l as [|x l IH]; intros s; simpl.
  - now intros [= <-].
  - destruct (isort l) as [s'|]; simpl; [|discriminate].
    intros I. rewrite (insert_filter _ _ _ _ I). simpl.
    now rewrite (IH _ eq_refl).
Qed.

Lemma filter_keyed (k : K) (s : list (K * A)) :
  Forall (keyed keyf) s ->
  filter (in_class keyf k) (map snd s)
  = map snd (filter (fun p => rich_eq (fst p) k) s).
Proof.
  induction 1 as [|p s Hp _ IH]; simpl; auto.
  unfold in_class at 1. rewrite Hp.
  destruct (rich_eq (fst p) k); simpl; now rewrite IH.
Qed.

(** [sorted] is stable: the rows of one class come out in input order. *)
Lemma sorted_filter (k : K) (l d : list A) :
  sorted keyf l = Ok d ->
  filter (in_class keyf k) d = filter (in_class keyf k) l.
Proof.
  unfold sorted.
  destruct (decorate keyf l) as [kl|] eqn:D; simpl; [|discriminate].
  destruct (isort kl) as [s|] eqn:I; simpl; [|discriminate].
  intros [= <-]. destruct (decorate_spec _ _ _ D) as [Hm Hk].
  destruct (isort_spec _ _ I) as [Hp _].
  rewrite filter_keyed.
  - rewrite (isort_filter _ _ _ I), <- filter_keyed by assumption.
    now rewrite Hm.
  - eapply Permutation_Forall; [symmetry; exact Hp | exact Hk].
Qed.

Lemma in_class_earlier (k k' : K) (r : A) :
  klt k k' -> in_class keyf k r = true -> in_class keyf k' r = false.
Proof.
  unfold in_class. destruct (keyf r) as [kr|]; [|discriminate].
  intros Hlt E. destruct (rich_eq kr k') eqn:E'; auto. exfalso.
  apply rich_lt_not_eq in Hlt. rewrite rich_eq_sym in E.
  rewrite (rich_eq_trans _ _ _ E E') in Hlt. discriminate.
Qed.

(** Each group is what the class of its key selects among all the rows
    grouped. *)
Lemma group_is_filter (gs : list (K * list A)) :
  well_grouped keyf gs ->
  Forall (fun kg => snd kg
                    = filter (in_class keyf (fst kg)) (List.concat (map snd gs)))
         gs.
Proof.
  induction gs as [|[k g] gs IH]; intros Hwg; constructor.
  - simpl. now destruct (first_group_filter keyf _ _ _ Hwg) as [-> _].
  - pose proof (well_grouped_members keyf _ Hwg) as Hm.
    inversion Hm as [|? ? Hg _]; subst. simpl in Hg.
    destruct Hwg as [Hne Hs].
    apply StronglySorted_inv in Hs as [Hs Hk]. simpl in Hk.
    assert (Hwg' : well_grouped keyf gs) by (split; [now inversion Hne | exact Hs]).
    specialize (IH Hwg'). rewrite Forall_forall in IH, Hk, Hg.
    rewrite Forall_forall. intros kg Hkg. simpl. rewrite filter_app.
    assert (Hnone : filter (in_class keyf (fst kg)) g = []).
    { apply filter_none. rewrite Forall_forall. intros r Hr.
      apply (in_class_earlier k); auto. }
    rewrite Hnone. simpl. now apply IH.
Qed.

End Stability.

(** X8.  When the Aggregate stage forms groups, no group is empty and
    the groups come in strictly ascending order of their keys (so no two
    groups have [==] keys). *)
Theorem aggregate_groups_ascending (self : ETLAggStep.t) (data : list Record) :
  match ETLAggStep.groups self (of_list data) with
  | Ok g =>
      exists gs,
        g = of_list gs
        /\ Forall (fun kg => snd kg <> []) gs
        /\ StronglySorted
             (fun kg1 kg2 => key_lt (fst kg1) (fst kg2) = Ok true) gs
  | Err _ => True
  end.
Proof.
  destruct (sorted (ETLAggStep._key_func self) data) as [d|e] eqn:S.
  - destruct (groups_spec _ _ _ S) as (gs & -> & _ & Hm & Hs).
    exists gs. split; [reflexivity|]. split; [|exact Hs].
    eapply Forall_impl; [|exact Hm]. now intros kg [H _].
  - now rewrite (groups_error _ _ _ S).
Qed.

(** X9.  When the Aggregate stage forms groups, each group holds
    exactly the input Records whose key is [==] to the group's key, in
    the order they had in the input: the sort is stable. *)
Theorem aggregate_groups_in_input_order (self : ETLAggStep.t) (data : list Record) :
  match ETLAggStep.groups self (of_list data) with
  | Ok g =>
      exists gs,
        g = of_list gs
        /\ Forall (fun kg =>
                     snd kg
                     = filter (in_class (ETLAggStep._key_func self) (fst kg)) data)
                  gs
  | Err _ => True
  end.
Proof.
  destruct (sorted (ETLAggStep._key_func self) data) as [d|e] eqn:S.
  - unfold ETLAggStep.groups. rewrite to_list_of_list. simpl. rewrite S. simpl.
    destruct (sorted_spec _ _ _ S) as (_ & Hs & Hk).
    destruct (groupby_spec _ _ Hs Hk) as (gs & -> & Hc & Hwg).
    exists gs. split; [reflexivity|].
    pose proof (group_is_filter (ETLAggStep._key_func self) gs Hwg) as Hf.
    rewrite Hc in Hf. eapply Forall_impl; [|exact Hf].
    intros kg ->.
    apply (sorted_filter (ETLAggStep._key_func self)). exact S.
  - now rewrite (groups_error _ _ _ S).
Qed.


(** X10.  In a stage whose key function is the one derived from a list
    of distinct field names (whatever the names), with a dict of field
    builders, every row yielded has the key fields, in the order of the
    list, followed by the builders' names that are not key fields, in the
    order of the dict. *)
Theorem aggregate_field_list_output_fields
    (fields : list string) (d : dict (list Record -> result value))
    (stage : ETLAggStep.t) (data : gen Record) :
  NoDup fields ->
  (forall row, ETLAggStep._key_func stage row = get_key fields row) ->
  ETLAggStep._add_fields stage = AddDict d ->
  wf d ->
  Forall (fun row =>
            keys row
            = fields ++ filter (fun name => negb (existsb (String.eqb name) fields))
                               (keys d))
         (yielded (ETLAggStep.run stage data)).
Proof.
  intros Hnd Hkf Haf Hwf.
  unfold ETLAggStep.run.
  destruct (ETLAggStep.groups stage data) as [gs|e] eqn:G; [|constructor].
  apply (gen_map_yielded _
           (fun kg => exists items,
                fst kg = KNamed fields items
                /\ List.length items = List.length fields)).
  - intros [k g] row (items & Hk & Hlen) Hagg. simpl in Hk. subst k.
    unfold ETLAggStep.agg_row in Hagg. simpl in Hagg. rewrite Haf in Hagg.
    destruct (mapM _ d) as [fs|] eqn:M; simpl in Hagg; [|discriminate].
    injection Hagg as <-. destruct (builders_fields _ _ _ M) as [Hks _].
    assert (Hc : keys (combine fields items) = fields) by now apply keys_combine.
    rewrite dict_of_wf by (unfold wf; now rewrite Hc).
    rewrite keys_update by (unfold wf; now rewrite Hks).
    now rewrite Hc, Hks.
  - unfold ETLAggStep.groups in G.
    destruct (to_list data) as [l|]; simpl in G; [|discriminate].
    destruct (sorted _ l) as [sl|]; simpl in G; [|discriminate].
    injection G as <-.
    apply (groupby_keys _ (fun k => exists items,
                               k = KNamed fields items
                               /\ List.length items = List.length fields)).
    intros r k. rewrite Hkf. unfold get_key.
    destruct (mapM _ fields) as [items|] eqn:M; simpl; [|discriminate].
    intros [= <-]. exists items. split; auto. now apply mapM_length in M.
Qed.

Lemma aggregate_field_list_output_fields_witness :
  exists stage,
    ETLAggStep.__init__
      (KeyFields ["state"; "year"])
      (AddDict [("total", sum_by_field "votes");
                ("state", fun _ => Ok (VStr "any"))])
    = Ok stage
    /\ Forall (fun row => keys row = ["state"; "year"; "total"])
              (yielded (ETLAggStep.run stage (of_list election_rows))).
Proof.
  eexists. split; [reflexivity|].
  apply (aggregate_field_list_output_fields
           ["state"; "year"]
           [("total", sum_by_field "votes");
            ("state", fun _ => Ok (VStr "any"))]).
  - repeat constructor; simpl; intuition discriminate.
  - intros row. reflexivity.
  - reflexivity.
  - solve_wf.
Defined.



(** ** [sum_by_field] *)

Lemma py_add_num (x y : value) (a b : Z) :
  num_of x = Some a -> num_of y = Some b -> py_add x y = Ok (VInt (a + b)).
Proof.
  destruct x as [|bx|a'|s], y as [|b_y|b'|u]; cbn [py_add num_of];
    try discriminate; intros [= <-] [= <-]; reflexivity.
Qed.

Lemma py_add_not_num (a : Z) (v : value) :
  num_of v = None -> py_add (VInt a) v = Err TypeError.
Proof. destruct v; cbn [py_add num_of]; try discriminate; reflexivity. Qed.

Lemma sum_fold (field : string) (group : list Record) (zs : list Z) (a : Z) :
  Forall2 (fun row z => exists v, get row field = Some v /\ num_of v = Some z)
          group zs ->
  foldM (fun acc row => v <- subscript row field ;; py_add acc v) group (VInt a)
  = Ok (VInt (a + fold_right Z.add 0%Z zs)).
Proof.
  intros H. revert a.
  induction H as [|row z group zs (v & Hg & Hn) _ IH]; intros a;
    cbn [foldM fold_right].
  - now rewrite Z.add_0_r.
  - unfold subscript. rewrite Hg. cbn [bind].
    rewrite (py_add_num (VInt a) v a z eq_refl Hn). cbn [bind].
    rewrite IH. now rewrite Z.add_assoc.
Qed.

(** X14.  On a group whose Records all have a number under the field
    (booleans counting as 0 and 1), [sum_by_field] returns the integer
    sum of these numbers; the sum of an empty group is 0. *)
Theorem sum_by_field_sums (field : string) (group : list Record) (zs : list Z) :
  Forall2 (fun row z => exists v, get row field = Some v /\ num_of v = Some z)
          group zs ->
  sum_by_field field group = Ok (VInt (fold_right Z.add 0%Z zs)).
Proof. intros H. unfold sum_by_field. now rewrite (sum_fold _ _ _ _ H). Qed.

Lemma sum_by_field_sums_witness :
  sum_by_field "votes" [[("votes", VInt 10)]; [("votes", VBool true)]]
  = Ok (VInt (fold_right Z.add 0%Z [10; 1]%Z)).
Proof.
  apply sum_by_field_sums. repeat constructor; eexists; split; reflexivity.
Defined.

(** X15.  [sum_by_field] stops at the first Record it cannot add: with
    [KeyError] when the Record lacks the field, with [TypeError] when the
    value under the field is not a number (a string, [None]). *)
Theorem sum_by_field_errors
    (field : string) (pre : list Record) (zs : list Z)
    (r : Record) (post : list Record) :
  Forall2 (fun row z => exists v, get row field = Some v /\ num_of v = Some z)
          pre zs ->
  (get r field = None ->
   sum_by_field field (pre ++ r :: post) = Err (KeyError field))
  /\ (forall v, get r field = Some v -> num_of v = None ->
                sum_by_field field (pre ++ r :: post) = Err TypeError).
Proof.
  intros H. unfold sum_by_field. rewrite foldM_app, (sum_fold _ _ _ _ H).
  cbn [bind foldM]. unfold subscript. split.
  - now intros ->.
  - intros v -> Hn. cbn [bind]. now rewrite py_add_not_num.
Qed.

Lemma sum_by_field_errors_witness :
  (get [("state", VStr "NY")] "votes" = None ->
   sum_by_field "votes" ([[("votes", VInt 10)]] ++ [("state", VStr "NY")] :: [])
   = Err (KeyError "votes"))
  /\ (forall v, get [("state", VStr "NY")] "votes" = Some v -> num_of v = None ->
                sum_by_field "votes"
                  ([[("votes", VInt 10)]] ++ [("state", VStr "NY")] :: [])
                = Err TypeError).
Proof.
  apply (sum_by_field_errors "votes" [[("votes", VInt 10)]] [10%Z]).
  repeat constructor. eexists; split; reflexivity.
Defined.

(** ** [pivot_on] *)

Lemma pairs_before {A : Type} (R : A -> A -> Prop) (l1 l2 : list A) (a : A) :
  ForallOrdPairs R (l1 ++ a :: l2) -> Forall (fun x => R x a) l1.
Proof.
  induction l1 as [|x l1 IH]; simpl; intros H; constructor;
    inversion H as [|? ? Hx Hl]; subst.
  - rewrite Forall_forall in Hx. apply Hx. apply in_or_app. right. now left.
  - now apply IH.
Qed.

Lemma value_contains_false (m : list (value * value)) (k : value) :
  Forall (fun kw => py_eq (fst kw) k = false) m -> value_contains m k = false.
Proof.
  unfold value_contains. induction 1 as [|kw m H _ IH]; simpl; auto.
  now rewrite H.
Qed.

Lemma pivot_fold (pivot_field value_field : string) (group : list Record)
    (out acc : list (value * value)) :
  Forall2 (fun row kv => get row pivot_field = Some (fst kv)
                         /\ get row value_field = Some (snd kv)) group out ->
  ForallOrdPairs (fun a b => py_eq (fst a) (fst b) = false) (acc ++ out) ->
  foldM (fun output row =>
           key <- subscript row pivot_field ;;
           if value_contains output key then Err (pivot_collision key)
           else (v <- subscript row value_field ;; Ok (output ++ [(key, v)])))
        group acc
  = Ok (acc ++ out).
Proof.
  intros H. revert acc.
  induction H as [|row [k v] group out [Hk Hv] _ IH]; intros acc Hd; simpl.
  - now rewrite app_nil_r.
  - simpl in Hk, Hv. unfold subscript. rewrite Hk. simpl.
    pose proof (pairs_before _ _ _ _ Hd) as Hb. simpl in Hb.
    rewrite (value_contains_false _ _ Hb).
    rewrite Hv. simpl. rewrite IH; rewrite <- app_assoc; auto.
Qed.

(** X16.  On a group whose Records have both fields and pairwise
    different ([!=]) pivot values, [pivot_on] returns the mapping from
    each Record's pivot value to its value, in group order. *)
Theorem pivot_on_maps (pivot_field value_field : string)
    (group : list Record) (out : list (value * value)) :
  Forall2 (fun row kv => get row pivot_field = Some (fst kv)
                         /\ get row value_field = Some (snd kv)) group out ->
  ForallOrdPairs (fun a b => py_eq (fst a) (fst b) = false) out ->
  pivot_on pivot_field value_field group = Ok out.
Proof.
  intros H Hd. unfold pivot_on. now rewrite (pivot_fold _ _ _ out []).
Qed.

Lemma pivot_on_maps_witness :
  pivot_on "party" "votes"
    [[("party", VStr "D"); ("votes", VInt 10)];
     [("party", VStr "R"); ("votes", VInt 7)]]
  = Ok [(VStr "D", VInt 10); (VStr "R", VInt 7)].
Proof.
  apply pivot_on_maps.
  - repeat constructor.
  - repeat constructor.
Defined.

Lemma Forall2_in_left {A B : Type} (R : A -> B -> Prop) (l : list A)
    (l' : list B) (a : A) :
  Forall2 R l l' -> In a l -> exists b, In b l' /\ R a b.
Proof.
  induction 1 as [|x y l l' Hxy _ IH]; simpl; [tauto|].
  intros [<- | Hin]; [eauto|].
  destruct (IH Hin) as (b & Hb & Hab). eauto.
Qed.

(** X17.  [pivot_on] fails at the first Record whose pivot value is
    [==] to the pivot value of a Record before it, with the exception
    whose message is: Collision in pivot for field, followed by that
    Record's pivot value; the Record's value field is not even looked
    up. *)
Theorem pivot_on_collision (pivot_field value_field : string)
    (pre : list Record) (out : list (value * value))
    (r0 : Record) (k0 : value)
    (r : Record) (post : list Record) (key : value) :
  Forall2 (fun row kv => get row pivot_field = Some (fst kv)
                         /\ get row value_field = Some (snd kv)) pre out ->
  ForallOrdPairs (fun a b => py_eq (fst a) (fst b) = false) out ->
  In r0 pre -> get r0 pivot_field = Some k0 -> py_eq k0 key = true ->
  get r pivot_field = Some key ->
  pivot_on pivot_field value_field (pre ++ r :: post)
  = Err (Exception ("Collision in pivot for field " ++ py_str key)).
Proof.
  intros H Hd Hr0 Hk0 Heq Hk. unfold pivot_on.
  rewrite foldM_app, (pivot_fold _ _ _ out []) by assumption. simpl.
  unfold subscript. rewrite Hk. simpl.
  assert (Hc : value_contains out key = true).
  { destruct (Forall2_in_left _ _ _ _ H Hr0) as (kv & Hkv & Hp & _).
    unfold value_contains. apply existsb_exists. exists kv. split; auto.
    rewrite Hk0 in Hp. injection Hp as <-. exact Heq. }
  now rewrite Hc.
Qed.

Lemma pivot_on_collision_witness :
  pivot_on "party" "votes"
    ([[("party", VInt 1); ("votes", VInt 10)]]
       ++ [("party", VBool true)] :: [])
  = Err (Exception "Collision in pivot for field True").
Proof.
  change (Exception "Collision in pivot for field True")
    with (Exception ("Collision in pivot for field " ++ py_str (VBool true))).
  apply (pivot_on_collision "party" "votes" _ [(VInt 1, VInt 10)]
           [("party", VInt 1); ("votes", VInt 10)] (VInt 1)).
  - repeat constructor.
  - repeat constructor.
  - simpl. tauto.
  - reflexivity.
  - reflexivity.
  - reflexivity.
Defined.

(** ** [add_fields] *)

Lemma add_fields_fold_other (fields : dict (Record -> result value))
    (row out : Record) (k : string) :
  add_fields fields row = Ok out -> ~ In k (keys fields) ->
  get out k = get row k.
Proof.
  unfold add_fields. revert row.
  induction fields as [|[n f] fields IH]; intros row; simpl.
  - now intros [= ->].
  - destruct (f row) as [v|]; simpl; [|discriminate].
    intros H Hnotin. rewrite (IH _ H) by tauto.
    apply get_set_other. tauto.
Qed.

Lemma add_fields_fold_keys (fields : dict (Record -> result value))
    (row out : Record) (k : string) :
  add_fields fields row = Ok out ->
  In k (keys row) \/ In k (keys fields) -> In k (keys out).
Proof.
  unfold add_fields. revert row.
  induction fields as [|[n f] fields IH]; intros row; simpl.
  - intros [= ->]. tauto.
  - destruct (f row) as [v|]; simpl; [|discriminate].
    intros H Hin. apply (IH _ H).
    destruct (String.eqb n k) eqn:E.
    + apply String.eqb_eq in E. subst n. left.
      apply in_keys_get. exists v. apply get_set_same.
    + apply String.eqb_neq in E. destruct Hin as [Hin | [Hin | Hin]]; auto;
        [|contradiction].
      left. apply in_keys_get. rewrite get_set_other by assumption.
      now apply in_keys_get.
Qed.

(** X18.  The row [add_fields] returns has every field of the input row
    and every field of the mapping, and the fields that the mapping does
    not name keep the value they had. *)
Theorem add_fields_keeps_other_fields
    (fields : dict (Record -> result value)) (row out : Record) :
  add_fields fields row = Ok out ->
  (forall k, In k (keys row) \/ In k (keys fields) -> In k (keys out))
  /\ (forall k, ~ In k (keys fields) -> get out k = get row k).
Proof.
  intros H. split; intros k Hk.
  - eapply add_fields_fold_keys; eauto.
  - eapply add_fields_fold_other; eauto.
Qed.

Lemma add_fields_keeps_other_fields_witness :
  (forall k, In k (keys [("votes", VInt 3)]) \/ In k ["double"] ->
             In k (keys [("votes", VInt 3); ("double", VInt 6)]))
  /\ (forall k, ~ In k ["double"] ->
                get [("votes", VInt 3); ("double", VInt 6)] k
                = get [("votes", VInt 3)] k).
Proof.
  apply (add_fields_keeps_other_fields
           [("double", fun row => v <- subscript row "votes" ;; py_add v v)]
           [("votes", VInt 3)]).
  reflexivity.
Defined.

(** X19.  The functions of [add_fields] run in the order of the mapping,
    each on the row as the functions before it left it: the value a
    function returns is the value of its field in the result, unless a
    later entry has the same name. *)
Theorem add_fields_sees_earlier_fields
    (pre post : dict (Record -> result value)) (name : string)
    (f : Record -> result value) (row out : Record) :
  add_fields (pre ++ (name, f) :: post) row = Ok out ->
  exists mid v,
    add_fields pre row = Ok mid
    /\ f mid = Ok v
    /\ (~ In name (keys post) -> get out name = Some v).
Proof.
  intros H. unfold add_fields in H. rewrite foldM_app in H.
  fold (add_fields pre row) in H.
  destruct (add_fields pre row) as [mid|] eqn:P; simpl in H; [|discriminate].
  destruct (f mid) as [v|] eqn:F; simpl in H; [|discriminate].
  exists mid, v. repeat split; auto.
  intros Hnotin. rewrite (add_fields_fold_other post _ _ name H Hnotin).
  apply get_set_same.
Qed.

Lemma add_fields_sees_earlier_fields_witness :
  exists mid v,
    add_fields [("double", fun row => v <- subscript row "votes" ;; py_add v v)]
               [("votes", VInt 3)] = Ok mid
    /\ (fun row => v <- subscript row "double" ;; py_add v v) mid = Ok v
    /\ (~ In "quad" (keys (@nil (string * (Record -> result value)))) ->
        get [("votes", VInt 3); ("double", VInt 6); ("quad", VInt 12)] "quad"
        = Some v).
Proof.
  apply (add_fields_sees_earlier_fields
           [("double", fun row => v <- subscript row "votes" ;; py_add v v)]
           [] "quad"
           (fun row => v <- subscript row "double" ;; py_add v v)
           [("votes", VInt 3)]).
  reflexivity.
Defined.

(** ** [get_field_normalizer] *)

Section FieldNormalizer.
Variable field_norms : field_normalizer.

Let rename := fun (output : Record) (kv : string * value) =>
                key <- norm_field field_norms (fst kv) ;;
                Ok (match key with
                    | Some k => set output k (snd kv)
                    | None => output
                    end).

Lemma rename_fold_from (row acc out : Record) (k' : string) (v : value) :
  foldM rename row acc = Ok out -> get out k' = Some v ->
  get acc k' = Some v
  \/ exists k, In (k, v) row /\ norm_field field_norms k = Ok (Some k').
Proof.
  revert acc. induction row as [|[k0 v0] row IH]; intros acc; simpl.
  - intros [= ->]. auto.
  - unfold rename at 1. simpl.
    destruct (norm_field field_norms k0) as [[k1|]|] eqn:N; simpl;
      try discriminate; intros H G;
      (destruct (IH _ H G) as [Hacc | (k & Hin & Hk)]; [|right; eauto]).
    + destruct (String.eqb k1 k') eqn:E.
      * apply String.eqb_eq in E. subst k1. rewrite get_set_same in Hacc.
        injection Hacc as ->. right. exists k0. auto.
      * apply String.eqb_neq in E. rewrite get_set_other in Hacc by assumption.
        now left.
    + now left.
Qed.

Lemma rename_fold_untouched (row acc out : Record) (k' : string) :
  foldM rename row acc = Ok out ->
  (forall k v, In (k, v) row -> norm_field field_norms k <> Ok (Some k')) ->
  get out k' = get acc k'.
Proof.
  revert acc. induction row as [|[k0 v0] row IH]; intros acc; simpl.
  - now intros [= ->].
  - unfold rename at 1. simpl.
    destruct (norm_field field_norms k0) as [[k1|]|] eqn:N; simpl;
      try discriminate; intros H Hno;
      (rewrite (IH _ H) by (intros k v Hin; apply (Hno k v); now right)); auto.
    apply get_set_other. intros ->. apply (Hno k0 v0); [now left | exact N].
Qed.

Lemma rename_fold_wf (row acc out : Record) :
  foldM rename row acc = Ok out -> wf acc -> wf out.
Proof.
  revert acc. induction row as [|[k0 v0] row IH]; intros acc; simpl.
  - now intros [= ->].
  - unfold rename at 1. simpl.
    destruct (norm_field field_norms k0) as [[k1|]|]; simpl;
      try discriminate; intros H Hwf; apply (IH _ H); auto.
    now apply wf_set.
Qed.

Lemma rename_fold_unique (row acc out : Record) (k k' : string) (v : value) :
  wf row ->
  foldM rename row acc = Ok out ->
  In (k, v) row ->
  norm_field field_norms k = Ok (Some k') ->
  (forall k2 v2, In (k2, v2) row ->
                 norm_field field_norms k2 = Ok (Some k') -> k2 = k) ->
  get out k' = Some v.
Proof.
  unfold wf. revert acc.
  induction row as [|[k0 v0] row IH]; intros acc Hnd; simpl; [tauto|].
  inversion Hnd as [|? ? Hnotin Hnd']; subst.
  unfold rename at 1. simpl. intros H Hin Hk Huniq.
  destruct Hin as [[= -> ->] | Hin].
  - rewrite Hk in H. simpl in H.
    rewrite (rename_fold_untouched _ _ _ k' H); [apply get_set_same|].
    intros k2 v2 Hin2 Hk2.
    assert (k2 = k) by (apply (Huniq k2 v2); auto). subst k2.
    apply Hnotin. change k with (fst (k, v2)). now apply in_map.
  - destruct (norm_field field_norms k0) as [key|]; simpl in H; [|discriminate].
    apply (IH _ Hnd' H Hin Hk). intros k2 v2 Hin2. apply (Huniq k2 v2). now right.
Qed.

End FieldNormalizer.

(** X20.  Every field of the Record the field normalizer returns is the
    new name of a field of the input and has that field's value: values
    are never changed, and a field renamed to [None] contributes
    nothing.  The Record returned has no duplicate field. *)
Theorem field_normalizer_output_comes_from_input
    (field_norms : field_normalizer) (row out : Record) :
  get_field_normalizer field_norms row = Ok out ->
  wf out
  /\ forall k' v,
      get out k' = Some v ->
      exists k, In (k, v) row /\ norm_field field_norms k = Ok (Some k').
Proof.
  unfold get_field_normalizer. intros H. split.
  - apply (rename_fold_wf _ _ _ _ H). constructor.
  - intros k' v G.
    destruct (rename_fold_from _ _ _ _ _ _ H G) as [Hacc | Hex]; auto.
    discriminate.
Qed.

Lemma field_normalizer_output_comes_from_input_witness :
  wf [("region", VStr "NY")]
  /\ forall k' v,
      get [("region", VStr "NY")] k' = Some v ->
      exists k,
        In (k, v) [("State", VStr "NY"); ("junk", VInt 0)]
        /\ norm_field (FieldDict [("State", Some "region"); ("junk", None)]) k
           = Ok (Some k').
Proof.
  apply (field_normalizer_output_comes_from_input
           (FieldDict [("State", Some "region"); ("junk", None)])
           [("State", VStr "NY"); ("junk", VInt 0)]).
  reflexivity.
Defined.

(** X21.  A field whose new name no other field of the Record is renamed
    to is found under its new name, with its value, in the Record the
    field normalizer returns. *)
Theorem field_normalizer_renames
    (field_norms : field_normalizer) (row out : Record)
    (k k' : string) (v : value) :
  wf row ->
  get_field_normalizer field_norms row = Ok out ->
  get row k = Some v ->
  norm_field field_norms k = Ok (Some k') ->
  (forall k2 v2, In (k2, v2) row ->
                 norm_field field_norms k2 = Ok (Some k') -> k2 = k) ->
  get out k' = Some v.
Proof.
  intros Hwf H G Hk Huniq.
  apply (rename_fold_unique field_norms row [] out k k' v); auto.
  now apply get_some_in.
Qed.

Lemma field_normalizer_renames_witness :
  get [("region", VStr "NY"); ("votes", VInt 3)] "region" = Some (VStr "NY").
Proof.
  apply (field_normalizer_renames
           (FieldDict [("State", Some "region")])
           [("State", VStr "NY"); ("votes", VInt 3)]
           [("region", VStr "NY"); ("votes", VInt 3)]
           "State" "region" (VStr "NY")).
  - solve_wf.
  - reflexivity.
  - reflexivity.
  - reflexivity.
  - intros k2 v2 [[= <- <-] | [[= <- <-] | []]]; [reflexivity | discriminate].
Defined.

(** X22.  With a mapping that names none of the Record's fields, the
    field normalizer returns the Record as it is. *)
Theorem field_normalizer_identity (m : dict (option string)) (row : Record) :
  wf row ->
  (forall k, In k (keys row) -> get m k = None) ->
  get_field_normalizer (FieldDict m) row = Ok row.
Proof.
  intros Hwf Hm. unfold get_field_normalizer.
  enough (H : forall acc, NoDup (keys acc ++ keys row) ->
                          foldM (fun output kv =>
                                   key <- norm_field (FieldDict m) (fst kv) ;;
                                   Ok (match key with
                                       | Some k => set output k (snd kv)
                                       | None => output
                                       end)) row acc
                          = Ok (acc ++ row))
    by (apply (H []); exact Hwf).
  clear Hwf. induction row as [|[k v] row IH]; intros acc Hnd; simpl.
  - now rewrite app_nil_r.
  - rewrite Hm by now left. simpl. rewrite set_absent.
    + rewrite IH.
      * now rewrite <- app_assoc.
      * intros k' Hk'. apply Hm. now right.
      * unfold keys in *. rewrite map_app, <- app_assoc. exact Hnd.
    + apply get_none_notin. simpl in Hnd. apply NoDup_remove_2 in Hnd.
      intros Hin. apply Hnd. apply in_or_app. now left.
Qed.

Lemma field_normalizer_identity_witness :
  get_field_normalizer (FieldDict [("State", Some "region")])
                       [("votes", VInt 3); ("year", VInt 2020)]
  = Ok [("votes", VInt 3); ("year", VInt 2020)].
Proof.
  apply field_normalizer_identity.
  - solve_wf.
  - intros k [<- | [<- | []]]; reflexivity.
Defined.

(** ** More on [get_value_normalizer] *)

Lemma norm_fold_fieldwise (value_norms : dict normalizer) (row acc out : Record) :
  NoDup (keys acc ++ keys row) ->
  foldM (fun output kv =>
           val <- norm_value value_norms (fst kv) (snd kv) ;;
           Ok (set output (fst kv) val)) row acc = Ok out ->
  exists out',
    out = acc ++ out'
    /\ Forall2 (fun kv kv' => fst kv' = fst kv
                              /\ norm_value value_norms (fst kv) (snd kv)
                                 = Ok (snd kv')) row out'.
Proof.
  revert acc. induction row as [|[k v] row IH]; intros acc Hnd; simpl.
  - intros [= <-]. exists []. split; [now rewrite app_nil_r | constructor].
  - destruct (norm_value value_norms k v) as [v'|] eqn:N; simpl; [|discriminate].
    rewrite set_absent.
    + intros H. destruct (IH (acc ++ [(k, v')])) as (out' & -> & Hall); auto.
      * unfold keys in *. rewrite map_app, <- app_assoc. exact Hnd.
      * exists ((k, v') :: out'). split; [now rewrite <- app_assoc|].
        constructor; auto.
    + apply get_none_notin. simpl in Hnd. apply NoDup_remove_2 in Hnd.
      intros Hin. apply Hnd. apply in_or_app. now left.
Qed.

Lemma norm_fold_total (value_norms : dict normalizer) (row acc : Record) :
  Forall (fun kv => exists v', norm_value value_norms (fst kv) (snd kv) = Ok v')
         row ->
  exists out,
    foldM (fun output kv =>
             val <- norm_value value_norms (fst kv) (snd kv) ;;
             Ok (set output (fst kv) val)) row acc = Ok out.
Proof.
  intros H. revert acc. induction H as [|kv row [v' Hv] _ IH]; intros acc; simpl.
  - eauto.
  - rewrite Hv. simpl. apply IH.
Qed.

(** X23.  The Record the value normalizer returns has the fields of the
    input, in the same order, each with the normalized value of the
    field. *)
Theorem value_normalizer_fieldwise
    (value_norms : dict normalizer) (row out : Record) :
  wf row ->
  get_value_normalizer value_norms row = Ok out ->
  Forall2 (fun kv kv' => fst kv' = fst kv
                         /\ norm_value value_norms (fst kv) (snd kv)
                            = Ok (snd kv')) row out.
Proof.
  intros Hwf H.
  destruct (norm_fold_fieldwise value_norms row [] out Hwf H) as (out' & -> & Hall).
  exact Hall.
Qed.

Lemma value_normalizer_fieldwise_witness :
  Forall2 (fun kv kv' =>
             fst kv' = fst kv
             /\ norm_value [("race", NormDict [(VStr "governor", VStr "gov")])]
                           (fst kv) (snd kv)
                = Ok (snd kv'))
          [("race", VStr "governor"); ("year", VInt 2020)]
          [("race", VStr "gov"); ("year", VInt 2020)].
Proof.
  apply value_normalizer_fieldwise; [solve_wf | reflexivity].
Defined.

(** X24.  The value normalizer fails at the first field, in the order of
    the Record, whose normalization fails, with that failure. *)
Theorem value_normalizer_first_failure
    (value_norms : dict normalizer) (pre : Record) (k : string) (v : value)
    (post : Record) (e : exn) :
  Forall (fun kv => exists v', norm_value value_norms (fst kv) (snd kv) = Ok v')
         pre ->
  norm_value value_norms k v = Err e ->
  get_value_normalizer value_norms (pre ++ (k, v) :: post) = Err e.
Proof.
  intros Hpre He. unfold get_value_normalizer. rewrite foldM_app.
  destruct (norm_fold_total value_norms pre [] Hpre) as [mid ->].
  simpl. now rewrite He.
Qed.

Lemma value_normalizer_first_failure_witness :
  get_value_normalizer [("b", NormOther); ("c", NormOther)]
                       ([("a", VInt 1)] ++ ("b", VInt 2) :: [("c", VInt 3)])
  = Err (unknown_normalizer "b").
Proof.
  apply value_normalizer_first_failure.
  - repeat constructor. eexists. reflexivity.
  - reflexivity.
Defined.

(** ** More on the compound key *)

Lemma dict_ext {V : Type} (d1 d2 : dict V) :
  wf d1 -> keys d1 = keys d2 -> (forall k, get d1 k = get d2 k) -> d1 = d2.
Proof.
  unfold wf. revert d2.
  induction d1 as [|[k v] d1 IH]; intros [|[k2 v2] d2] Hnd Hk Hg;
    try discriminate; auto.
  simpl in Hk. injection Hk as <- Hk.
  inversion Hnd as [|? ? Hnotin Hnd']; subst.
  pose proof (Hg k) as Hgk. simpl in Hgk. rewrite String.eqb_refl in Hgk.
  injection Hgk as <-. f_equal. apply IH; auto.
  intros k'. specialize (Hg k'). simpl in Hg.
  destruct (String.eqb k k') eqn:E; auto.
  apply String.eqb_eq in E. subst k'.
  pose proof Hnotin as Hnotin2. fold (keys d1) in Hnotin. rewrite Hk in Hnotin2.
  apply get_none_notin in Hnotin. apply get_none_notin in Hnotin2. congruence.
Qed.

Lemma key_parts (row : Record) (fields : list string) (vals : list value) :
  Forall2 (fun f v => get row f = Some v) fields vals ->
  mapM (fun field => v <- subscript row field ;; Ok (py_str v)) fields
  = Ok (map py_str vals).
Proof.
  induction 1 as [|f v fields vals Hf _ IH]; simpl; auto.
  unfold subscript at 1. rewrite Hf. simpl. now rewrite IH.
Qed.

Lemma split_join_combine {V : Type} (fields : list V) (parts : list string) :
  Forall (fun p => no_delimiter p = true) parts ->
  List.length parts = List.length fields ->
  combine fields (map VStr (split delimiter (join delimiter parts)))
  = combine fields (map VStr parts).
Proof.
  intros Hp Hlen. destruct parts as [|p parts].
  - destruct fields; [reflexivity | discriminate].
  - rewrite split_join; auto. discriminate.
Qed.

Lemma get_combine (row : Record) (fields : list string) (vals : list value)
    (f : string) :
  Forall2 (fun f v => get row f = Some v) fields vals ->
  In f fields -> get (combine fields vals) f = get row f.
Proof.
  induction 1 as [|f0 v0 fields vals Hf _ IH]; simpl; [tauto|].
  intros Hin. destruct (String.eqb f0 f) eqn:E.
  - apply String.eqb_eq in E. now subst.
  - apply String.eqb_neq in E. destruct Hin; [contradiction | auto].
Qed.

Lemma get_combine_map {V W : Type} (g : V -> W) (fields : list string)
    (vals : list V) (f : string) :
  get (combine fields (map g vals)) f
  = option_map g (get (combine fields vals) f).
Proof.
  revert vals. induction fields as [|f0 fields IH]; intros [|v vals]; simpl; auto.
  destruct (String.eqb f0 f); auto.
Qed.

Lemma inverse_transforms (fields : list string) (row base : Record)
    (inv : dict (value -> result value)) :
  (forall f, In f fields ->
             forall v, get row f = Some v ->
                       get base f = Some (VStr (py_str v))) ->
  Forall (fun kf => exists v, In (fst kf) fields /\ get row (fst kf) = Some v
                              /\ snd kf (VStr (py_str v)) = Ok v) inv ->
  exists upd,
    mapM (fun kf => v <- subscript base (fst kf) ;;
                    v' <- snd kf v ;; Ok (fst kf, v')) inv = Ok upd
    /\ keys upd = keys inv
    /\ Forall (fun kv => In (fst kv) fields /\ get row (fst kv) = Some (snd kv))
              upd.
Proof.
  intros Hbase. induction 1 as [|[f g] inv (v & Hin & Hr & Hg) _ IH]; simpl.
  - exists []. repeat split; constructor.
  - destruct IH as (upd & -> & Hk & Hall). simpl in *.
    unfold subscript. rewrite (Hbase f Hin v Hr). simpl. rewrite Hg. simpl.
    exists ((f, v) :: upd). repeat split; simpl; auto. now rewrite Hk.
Qed.

Lemma Forall2_length_eq {A B : Type} (R : A -> B -> Prop) (l : list A) (l' : list B) :
  Forall2 R l l' -> List.length l' = List.length l.
Proof. induction 1; simpl; congruence. Qed.

(** X25.  The compound key round trip in general: for a list of distinct
    fields the row has, whose stringified values are free of the
    delimiter, where every inverse transform undoes [str] on its field's
    value and the fields without an inverse transform hold strings, the
    inverse key function applied to the key gives back the partial
    Record of the fields, in the order of the list. *)
Theorem compound_key_round_trip_general
    (fields : list string) (inv_transforms : dict (value -> result value))
    (row : Record) (vals : list value) :
  NoDup fields ->
  wf inv_transforms ->
  Forall2 (fun f v => get row f = Some v) fields vals ->
  Forall (fun v => no_delimiter (py_str v) = true) vals ->
  (forall f g, get inv_transforms f = Some g ->
               exists v, In f fields /\ get row f = Some v
                         /\ g (VStr (py_str v)) = Ok v) ->
  (forall f v, In f fields -> get inv_transforms f = None ->
               get row f = Some v -> exists s, v = VStr s) ->
  let (key_func, inverse_key_func) :=
    compound_key_func_gen fields inv_transforms in
  exists key,
    key_func row = Ok key
    /\ inverse_key_func key = Ok (combine fields vals).
Proof.
  intros Hnd Hwf Hvals Hfree Hinv Hstr. unfold compound_key_func_gen.
  exists (VStr (join delimiter (map py_str vals))). split.
  - now rewrite (key_parts _ _ _ Hvals).
  - pose proof (Forall2_length_eq _ _ _ Hvals) as Hlen.
    rewrite split_join_combine;
      [|now rewrite Forall_map | now rewrite length_map].
    set (base := combine fields (map VStr (map py_str vals))).
    assert (Hkb : keys base = fields)
      by (apply keys_combine; now rewrite !length_map).
    assert (Hwb : wf base) by (unfold wf; now rewrite Hkb).
    rewrite (dict_of_wf base Hwb).
    assert (Hgb : forall f, In f fields ->
                            forall v, get row f = Some v ->
                                      get base f = Some (VStr (py_str v))).
    { intros f Hf v Hv. unfold base. rewrite map_map, get_combine_map.
      now rewrite (get_combine _ _ _ _ Hvals Hf), Hv. }
    destruct (inverse_transforms fields row base inv_transforms Hgb)
      as (upd & -> & Hku & Hupd).
    { rewrite Forall_forall. intros [f g] Hfg. simpl.
      apply Hinv. now apply in_get_some. }
    simpl. f_equal.
    assert (Hwu : wf upd) by (unfold wf; now rewrite Hku).
    rewrite Forall_forall in Hupd.
    apply dict_ext.
    + now apply wf_update.
    + rewrite keys_update by exact Hwu. rewrite Hkb, filter_none.
      * rewrite app_nil_r. symmetry. now apply keys_combine.
      * rewrite Forall_forall. intros k Hk. apply negb_false_iff.
        apply existsb_eqb_in.
        apply in_keys_get in Hk as [v Hv]. apply get_some_in in Hv.
        now destruct (Hupd _ Hv).
    + intros k. rewrite get_update by exact Hwu.
      destruct (get upd k) as [v|] eqn:G.
      * apply get_some_in in G. destruct (Hupd _ G) as [Hkf Hrk]. simpl in *.
        now rewrite (get_combine _ _ _ _ Hvals Hkf).
      * assert (Hik : get inv_transforms k = None).
        { apply get_none_notin. rewrite <- Hku. now apply get_none_notin. }
        destruct (in_dec string_dec k fields) as [Hkf | Hkf].
        -- rewrite (get_combine _ _ _ _ Hvals Hkf).
           destruct (get row k) as [v|] eqn:Hr.
           ++ rewrite (Hgb k Hkf v Hr).
              destruct (Hstr k v Hkf Hik Hr) as [s ->]. reflexivity.
           ++ unfold base. rewrite map_map, get_combine_map.
              now rewrite (get_combine _ _ _ _ Hvals Hkf), Hr.
        -- assert (G1 : get base k = None)
             by (apply get_none_notin; now rewrite Hkb).
           assert (G2 : get (combine fields vals) k = None).
           { apply get_none_notin. rewrite keys_combine; auto. }
           now rewrite G1, G2.
Qed.

Lemma compound_key_round_trip_general_witness :
  let parse := fun v => match v with
                        | VStr "7" => Ok (VInt 7)
                        | _ => Err ValueError
                        end in
  let (key_func, inverse_key_func) :=
    compound_key_func_gen ["a"; "n"] [("n", parse)] in
  exists key,
    key_func [("n", VInt 7); ("a", VStr "x"); ("z", VNone)] = Ok key
    /\ inverse_key_func key = Ok (combine ["a"; "n"] [VStr "x"; VInt 7]).
Proof.
  apply (compound_key_round_trip_general
           ["a"; "n"]
           [("n", fun v => match v with
                           | VStr "7" => Ok (VInt 7)
                           | _ => Err ValueError
                           end)]
           [("n", VInt 7); ("a", VStr "x"); ("z", VNone)]
           [VStr "x"; VInt 7]).
  - repeat constructor; simpl; intuition discriminate.
  - solve_wf.
  - repeat constructor.
  - repeat constructor.
  - intros f g. cbn [get]. destruct (String.eqb "n" f) eqn:E; [|discriminate].
    apply String.eqb_eq in E. subst f. intros [= <-].
    exists (VInt 7). repeat split. simpl. tauto.
  - intros f v [<- | [<- | []]].
    + intros _ [= <-]. eauto.
    + discriminate.
Defined.

Lemma set_Forall {V : Type} (P : string * V -> Prop) (d : dict V)
    (k : string) (v : V) :
  Forall P d -> P (k, v) -> Forall P (set d k v).
Proof.
  intros Hd Hkv. induction Hd as [|[k' v'] d Hp Hd' IH]; simpl.
  - now constructor.
  - destruct (String.eqb k' k) eqn:E.
    + apply String.eqb_eq in E. subst k'. constructor; assumption.
    + constructor; assumption.
Qed.

Lemma update_Forall {V : Type} (P : string * V -> Prop) (d d2 : dict V) :
  Forall P d -> Forall P d2 -> Forall P (update d d2).
Proof.
  unfold update. intros Hd Hd2. revert d Hd.
  induction Hd2 as [|[k v] d2 Hkv _ IH]; intros d Hd; simpl; auto.
  apply IH. apply set_Forall; auto.
Qed.

(** X26.  Without inverse transforms, the Record the inverse key
    function returns has only fields of the field list, and every value
    in it is a string: a value that was not a string when the key was
    made does not come back as it was. *)
Theorem compound_key_inverse_gives_strings
    (fields : list string) (key : value) (out : Record) :
  snd (compound_key_func_gen fields []) key = Ok out ->
  Forall (fun kv => In (fst kv) fields /\ exists s, snd kv = VStr s) out.
Proof.
  unfold compound_key_func_gen. simpl.
  destruct key as [| |z|s]; try discriminate. intros [= <-].
  unfold dict_of.
  apply update_Forall; [constructor|].
  rewrite Forall_forall. intros [f v] Hin. simpl. split.
  - eapply in_combine_l; eauto.
  - apply in_combine_r in Hin. apply in_map_iff in Hin as (p & <- & _). eauto.
Qed.

Lemma compound_key_inverse_gives_strings_witness :
  Forall (fun kv => In (fst kv) ["a"; "n"] /\ exists s, snd kv = VStr s)
         [("a", VStr "x"); ("n", VStr "7")].
Proof.
  apply (compound_key_inverse_gives_strings ["a"; "n"] (VStr "x-7")).
  reflexivity.
Defined.

(** ** More on [merge_fields] *)

Lemma merge_ok_agree (group : list Record) (out : Record) :
  Forall wf group -> merge_fields group = Ok out ->
  agree group /\ forall k, get out k = first_value group k.
Proof.
  intros Hwf M. rewrite merge_fields_flat in M.
  apply merge_flat_ok in M as (Hget & Hagree & _). simpl in Hget, Hagree.
  split.
  - intros r1 r2 k v1 v2 H1 H2 G1 G2.
    assert (I1 : In (k, v1) (List.concat group)).
    { apply in_concat. exists r1. split; auto. now apply get_some_in. }
    assert (I2 : In (k, v2) (List.concat group)).
    { apply in_concat. exists r2. split; auto. now apply get_some_in. }
    destruct (Hagree _ _ I1) as (old & Ho & E1).
    destruct (Hagree _ _ I2) as (old' & Ho' & E2).
    assert (old' = old) by congruence. subst old'.
    rewrite py_eq_sym in E1. eapply py_eq_trans; eauto.
  - intros k. now rewrite Hget, get_concat.
Qed.

Lemma merge_agree_ok (group : list Record) :
  Forall wf group -> agree group -> exists out, merge_fields group = Ok out.
Proof.
  intros Hwf Hagree. rewrite merge_fields_flat.
  destruct (foldM merge_item (List.concat group) []) as [out|e] eqn:M; eauto.
  exfalso. apply merge_flat_err in M as (k & v & old & Hin & Hg & Hne & _).
  simpl in Hg. apply get_some_in in Hg.
  destruct (in_concat_get _ _ _ Hwf Hin) as (r & Hr & Gr).
  destruct (in_concat_get _ _ _ Hwf Hg) as (r0 & Hr0 & Gr0).
  rewrite (Hagree r0 r k old v Hr0 Hr Gr0 Gr) in Hne. discriminate.
Qed.

Lemma agree_perm (g1 g2 : list Record) :
  Permutation g1 g2 -> agree g1 -> agree g2.
Proof.
  intros Hp H r1 r2 k v1 v2 H1 H2. symmetry in Hp.
  apply H; eapply Permutation_in; eauto.
Qed.

(** X27.  Merging does not depend on the order of the group: on two
    permutations of a group, [merge_fields] fails on both or succeeds on
    both, and then the two Records are equal ([==]): same fields, [==]
    values. *)
Theorem merge_fields_order_independent (group1 group2 : list Record) :
  Forall wf group1 ->
  Permutation group1 group2 ->
  match merge_fields group1, merge_fields group2 with
  | Ok out1, Ok out2 => record_eq out1 out2
  | Err _, Err _ => True
  | _, _ => False
  end.
Proof.
  intros Hwf1 Hp.
  assert (Hwf2 : Forall wf group2) by (eapply Permutation_Forall; eauto).
  destruct (merge_fields group1) as [out1|e1] eqn:M1;
    destruct (merge_fields group2) as [out2|e2] eqn:M2; auto.
  - destruct (merge_ok_agree _ _ Hwf1 M1) as [Ha1 Hg1].
    destruct (merge_ok_agree _ _ Hwf2 M2) as [Ha2 Hg2].
    intros k. rewrite Hg1, Hg2.
    destruct (first_value group1 k) as [v1|] eqn:F1;
      destruct (first_value group2 k) as [v2|] eqn:F2; auto.
    + destruct (first_value_in _ _ _ F1) as (r1 & Hr1 & G1).
      destruct (first_value_in _ _ _ F2) as (r2 & Hr2 & G2).
      apply (Ha1 r1 r2 k); auto. eapply Permutation_in; [symmetry|]; eauto.
    + assert (H : exists v, first_value group2 k = Some v).
      { apply first_value_some.
        destruct (proj1 (first_value_some group1 k)) as (r & Hr & Hk); eauto.
        exists r. split; auto. eapply Permutation_in; eauto. }
      destruct H as [v Hv]. congruence.
    + assert (H : exists v, first_value group1 k = Some v).
      { apply first_value_some.
        destruct (proj1 (first_value_some group2 k)) as (r & Hr & Hk); eauto.
        exists r. split; auto. eapply Permutation_in; [symmetry|]; eauto. }
      destruct H as [v Hv]. congruence.
  - destruct (merge_ok_agree _ _ Hwf1 M1) as [Ha1 _].
    destruct (merge_agree_ok group2 Hwf2 (agree_perm _ _ Hp Ha1)) as [out Ho].
    congruence.
  - destruct (merge_ok_agree _ _ Hwf2 M2) as [Ha2 _].
    symmetry in Hp.
    destruct (merge_agree_ok group1 Hwf1 (agree_perm _ _ Hp Ha2)) as [out Ho].
    congruence.
Qed.

Lemma merge_fields_order_independent_witness :
  match merge_fields [[("a", VInt 1)]; [("b", VInt 2); ("a", VBool true)]],
        merge_fields (rev [[("a", VInt 1)]; [("b", VInt 2); ("a", VBool true)]])
  with
  | Ok out1, Ok out2 => record_eq out1 out2
  | Err _, Err _ => True
  | _, _ => False
  end.
Proof.
  apply merge_fields_order_independent.
  - repeat constructor; solve_wf.
  - apply Permutation_rev.
Defined.

(** ** The field builders in the rows of the Aggregate stage *)

(** X12.  With a callable as field builders, the row emitted for a group
    is the key expansion updated with the mapping the callable returns on
    the group: a field of the mapping has the mapping's value, also when
    it is a key field, and the other key fields keep the key's values. *)
Theorem aggregate_whole_mapping_overrides
    (self : ETLAggStep.t) (f : list Record -> result Record)
    (data : gen Record) (gs : gen (key * list Record)) (i : nat)
    (k : key) (group : list Record) (row key_fields fields : Record) :
  ETLAggStep._add_fields self = AddCallable f ->
  ETLAggStep.groups self data = Ok gs ->
  nth_error (yielded gs) i = Some (k, group) ->
  nth_error (yielded (ETLAggStep.run self data)) i = Some row ->
  _asdict k = Ok key_fields ->
  f group = Ok fields ->
  wf fields ->
  forall name,
    get row name = match get fields name with
                   | Some v => Some v
                   | None => get key_fields name
                   end.
Proof.
  intros Hadd Hgs Hi Hrow Hkd Hf Hwf name.
  unfold ETLAggStep.run in Hrow. rewrite Hgs in Hrow.
  apply gen_map_nth in Hrow as (kg & Hkg & Hagg).
  rewrite Hi in Hkg. injection Hkg as <-.
  unfold ETLAggStep.agg_row in Hagg. rewrite Hkd, Hadd in Hagg. simpl in Hagg.
  rewrite Hf in Hagg. simpl in Hagg. injection Hagg as <-.
  now apply get_update.
Qed.

Lemma aggregate_whole_mapping_overrides_witness :
  get [("state", VStr "ny"); ("year", VInt 2020); ("n", VInt 1)] "state"
  = match get [("state", VStr "ny"); ("n", VInt 1)] "state" with
    | Some v => Some v
    | None => get [("state", VStr "NY"); ("year", VInt 2020)] "state"
    end.
Proof.
  refine (aggregate_whole_mapping_overrides
           {| ETLAggStep._key_func :=
                fun row => s <- subscript row "state" ;;
                           y <- subscript row "year" ;;
                           Ok (KNamed ["state"; "year"] [s; y]);
              ETLAggStep._add_fields :=
                AddCallable (fun group =>
                               Ok [("state", VStr "ny");
                                   ("n", VInt (Z.of_nat (List.length group)))]) |}
           (fun group => Ok [("state", VStr "ny");
                             ("n", VInt (Z.of_nat (List.length group)))])
           (of_list [[("state", VStr "NY"); ("year", VInt 2020)]])
           (of_list [(KNamed ["state"; "year"] [VStr "NY"; VInt 2020],
                      [[("state", VStr "NY"); ("year", VInt 2020)]])])
           0
           (KNamed ["state"; "year"] [VStr "NY"; VInt 2020])
           [[("state", VStr "NY"); ("year", VInt 2020)]]
           [("state", VStr "ny"); ("year", VInt 2020); ("n", VInt 1)]
           [("state", VStr "NY"); ("year", VInt 2020)]
           [("state", VStr "ny"); ("n", VInt 1)]
           _ _ _ _ _ _ _ "state");
    try reflexivity.
  solve_wf.
Defined.

(** X13.  A failure while building the row of a group (a field builder
    that raises, a key without [_asdict]) surfaces at that group: the
    rows of the groups before it have been yielded, and the exception
    ends the sequence. *)
Theorem aggregate_builder_error_after_earlier_rows
    (self : ETLAggStep.t) (data : gen Record)
    (pre : list (key * list Record)) (kg : key * list Record)
    (post : list (key * list Record)) (rows : list Record) (e : exn) :
  ETLAggStep.groups self data = Ok (of_list (pre ++ kg :: post)) ->
  Forall2 (fun kg row => ETLAggStep.agg_row self kg = Ok row) pre rows ->
  ETLAggStep.agg_row self kg = Err e ->
  ETLAggStep.run self data = gen_app (of_list rows) (GRaise e).
Proof.
  intros Hgs Hpre He. unfold ETLAggStep.run. rewrite Hgs.
  rewrite of_list_app, (gen_map_app _ _ _ _ Hpre). simpl. now rewrite He.
Qed.

Lemma aggregate_builder_error_after_earlier_rows_witness :
  ETLAggStep.run
    {| ETLAggStep._key_func :=
         fun row => v <- subscript row "k" ;; Ok (KNamed ["k"] [v]);
       ETLAggStep._add_fields := AddDict [("total", sum_by_field "n")] |}
    (of_list [[("k", VInt 2)]; [("k", VInt 1); ("n", VInt 5)]])
  = gen_app (of_list [[("k", VInt 1); ("total", VInt 5)]])
            (GRaise (KeyError "n")).
Proof.
  apply (aggregate_builder_error_after_earlier_rows
           _ _
           [(KNamed ["k"] [VInt 1], [[("k", VInt 1); ("n", VInt 5)]])]
           (KNamed ["k"] [VInt 2], [[("k", VInt 2)]])
           []).
  - reflexivity.
  - repeat constructor.
  - reflexivity.
Defined.
